(** * Ground-motion kernels: oscillator response and Konno-Ohmachi smoothing

    A shallow embedding of the three C files of the repository

      - [src/gmprocess/metrics/cfuncs.c]      (oscillator integrator that
        takes a [times] array and sub-samples; module [Legacy]),
      - [src/src/gmprocess/metrics/cfuncs.c]  (oscillator integrator that
        takes [dt] directly; module [Current]),
      - [src/gmprocess/waveform_processing/smoothing/smoothing.c]
        ([konno_ohmachi_c]),

    followed by the properties of the specification that can be stated on
    them.

    Arithmetic.  A C [double] is read as a real number: [+ - * /], [sqrt],
    [exp], [sin], [cos] are the operations of [R], [pow] and [log10] are
    [Rpower] and [ln x / ln 10], [M_PI] is [PI].  Rounding, overflow and
    the IEEE special values are therefore outside the model, with one
    exception: the constant [NAN] that the smoother stores on purpose is a
    value of its own in the output cells ([sample]).  Division in [R] is
    total ([x / 0 = 0]); under the preconditions of the data model
    ([period > 0], [0 <= damping < 1], a positive step, [bandwidth > 0],
    a target of at least 1e-6) no divisor of the program is zero
    ([current_divisors_nonzero], [legacy_divisors_nonzero],
    [window_divisor_nonzero]), so that the two divisions agree there.

    Memory.  An array is a list; reading or writing outside of it is
    undefined behaviour in C and is [None] here, so every function of the
    program returns an [option]. Distinct pointer arguments are distinct
    arrays (no aliasing between the buffers of one call).  An [int] is a
    [Z]; its 32-bit range, [INT_MIN] to [INT_MAX], enters where a
    [double] is converted: [(int)x] truncates toward zero where the
    result fits ([int_of_double]).

    Binary64.  Module [F64] transcribes the smoother a second time, over
    the primitive binary64 numbers, with the three functions of the C
    mathematical library as parameters.  It serves where a statement about
    stored values is decided by rounding. *)

From Stdlib Require Import Reals RList Lra Lia ZArith.
From Stdlib Require Floats.
From stdpp Require Import base decidable option list.

(** ** Arrays and loops *)

(** [a[k] = v]: defined only inside the array. *)
Definition store {A : Type} (a : list A) (k : nat) (v : A) : option (list A) :=
  if decide (k < length a)%nat then Some (<[k := v]> a) else None.

(** [for (k = ...; ...; k++) body]: the indices the loop visits, in order;
    the first failing iteration makes the whole loop fail. *)
Fixpoint for_loop {St : Type} (body : nat -> St -> option St)
    (ks : list nat) (st : St) : option St :=
  match ks with
  | [] => Some st
  | k :: ks' => st' ← body k st; for_loop body ks' st'
  end.

(** ** Numbers *)

#[global] Instance Rlt_decision (x y : R) : Decision (x < y)%R := Rlt_dec x y.
#[global] Instance Rgt_decision (x y : R) : Decision (x > y)%R := Rgt_dec x y.
#[global] Instance Rle_decision (x y : R) : Decision (x <= y)%R := Rle_dec x y.

(** The C comparisons [x < y] and [x > y] as truth values. *)
Definition Rltb (x y : R) : bool := bool_decide (x < y)%R.
Definition Rgtb (x y : R) : bool := bool_decide (x > y)%R.

(** The range of an [int] (32 bits). *)
Definition INT_MIN : Z := -2147483648.
Definition INT_MAX : Z := 2147483647.

(** [(int)x]: the integer part, toward zero, when it fits an [int], that
    is for [-2147483649 < x < 2147483648].  Outside of that range the
    conversion is undefined in C; the value given here is the one that the
    conversion instruction of x86-64 (cvttsd2si) delivers, [INT_MIN].
    The statements below that describe the value of the conversion carry
    the hypothesis that it is in range; out of range the only fact in use
    is that the sub-step count is not zero ([substeps_nonzero]). *)
Definition int_of_double (x : R) : Z :=
  let z := if decide (0 <= x)%R then Zfloor x else Zceil x in
  if decide (INT_MIN <= z <= INT_MAX)%Z then z else INT_MIN.

Definition M_PI : R := PI.
Definition fabs (x : R) : R := Rabs x.
Definition log10 (x : R) : R := (ln x / ln 10)%R.
Definition pow (x y : R) : R := Rpower x y.

(** A cell of the smoother's output buffer: a number, or the [NAN] the
    program stores where no smoothed value exists. *)
Inductive sample : Type :=
  | Num (x : R)
  | NAN.

(** ** The oscillator integrator *)

(** The three caller-owned output buffers. *)
Record resp : Type := Resp {
  sacc : list R;
  svel : list R;
  sdis : list R
}.

(** The locals computed once per call (lines 18-33 of the legacy file,
    19-31 of the current one). *)
Record consts : Type := Consts {
  c_w : R; c_wd : R; c_dt : R; c_sine : R; c_cosine : R;
  c_w2 : R; c_w2i : R; c_wdi : R; c_dw : R; c_ddtw3 : R
}.

Module Current.
Section Code.
Local Open Scope R_scope.

Definition setup (dt period damping : R) : consts :=
  let w := 2 * M_PI / period in
  let d := damping in
  let wd := sqrt (1 - d * d) * w in
  let e := exp (-1 * d * w * dt) in
  let sine := e * sin (wd * dt) in
  let cosine := e * cos (wd * dt) in
  let w2 := w * w in
  let w3 := w2 * w in
  let w2i := 1 / w2 in
  let wdi := 1 / wd in
  let dw := d * w in
  let ddtw3 := 2 * d / (dt * w3) in
  Consts w wd dt sine cosine w2 w2i wdi dw ddtw3.

(** Lines 43-54: the sample of index 0, from a state at rest. *)
Definition first_sample (c : consts) (acc : list R) (st : resp)
    : option resp :=
  let '(Consts w wd dt sine cosine w2 w2i wdi dw ddtw3) := c in
  g ← acc !! 0%nat;
  a1 ← acc !! 1%nat;
  let dug := a1 - g in
  let gw2i := g * w2i in
  let dugw2i := dug * w2i in
  let dugw2idt := dugw2i / dt in
  let b := 0 + gw2i - ddtw3 * dug in
  let a := wdi * 0 + dw * wdi * b + wdi * dugw2idt in
  sdis1 ← store (sdis st) 0 (a * sine + b * cosine + ddtw3 * dug - gw2i - dugw2i);
  svel1 ← store (svel st) 0
            (a * (wd * cosine - dw * sine) -
             b * (wd * sine + dw * cosine) -
             dugw2idt);
  sv ← svel1 !! 0%nat;
  sd ← sdis1 !! 0%nat;
  sacc1 ← store (sacc st) 0 (-2 * dw * sv - w2 * sd);
  Some (Resp sacc1 svel1 sdis1).

(** Lines 57-69: the body of the loop, at index [k]. *)
Definition loop_body (c : consts) (acc : list R) (k : nat) (st : resp)
    : option resp :=
  let '(Consts w wd dt sine cosine w2 w2i wdi dw ddtw3) := c in
  g ← acc !! k;
  a1 ← acc !! (k + 1)%nat;
  let dug := a1 - g in
  let gw2i := g * w2i in
  let dugw2i := dug * w2i in
  let dugw2idt := dugw2i / dt in
  pd ← sdis st !! (k - 1)%nat;
  let b := pd + gw2i - ddtw3 * dug in
  pv ← svel st !! (k - 1)%nat;
  let a := wdi * pv + dw * wdi * b + wdi * dugw2idt in
  sdis1 ← store (sdis st) k (a * sine + b * cosine + ddtw3 * dug - gw2i - dugw2i);
  svel1 ← store (svel st) k
            (a * (wd * cosine - dw * sine) -
             b * (wd * sine + dw * cosine) -
             dugw2idt);
  sv ← svel1 !! k;
  sd ← sdis1 !! k;
  sacc1 ← store (sacc st) k (-2 * dw * sv - w2 * sd);
  Some (Resp sacc1 svel1 sdis1).

(** [for (k = 1; k < np - 1; k++)] visits 1, ..., np-2. *)
Definition calculate_spectrals_c (acc : list R) (np : Z)
    (dt period damping : R) (st : resp) : option resp :=
  let c := setup dt period damping in
  st0 ← first_sample c acc st;
  for_loop (loop_body c acc) (seq 1 (Z.to_nat (np - 2))) st0.
End Code.
End Current.

Module Legacy.
Section Code.
Local Open Scope R_scope.

(** Line 22: the number of sub-steps, an integer stored in a double. *)
Definition substeps (dt_in period : R) : R :=
  IZR (int_of_double (10 * dt_in / period - 0.01)) + 1.

Definition setup (dt_in ns period damping : R) : consts :=
  let w := 2 * M_PI / period in
  let d := damping in
  let wd := sqrt (1 - d * d) * w in
  let dt := dt_in / ns in
  let e := exp (-1 * d * w * dt) in
  let sine := e * sin (wd * dt) in
  let cosine := e * cos (wd * dt) in
  let w2 := w * w in
  let w3 := w2 * w in
  let w2i := 1 / w2 in
  let wdi := 1 / wd in
  let dw := d * w in
  let ddtw3 := 2 * d / (dt * w3) in
  Consts w wd dt sine cosine w2 w2i wdi dw ddtw3.

(** Lines 45-56. *)
Definition first_sample (c : consts) (ns : R) (acc : list R) (st : resp)
    : option resp :=
  let '(Consts w wd dt sine cosine w2 w2i wdi dw ddtw3) := c in
  g ← acc !! 0%nat;
  a1 ← acc !! 1%nat;
  let dug := (a1 - g) / ns in
  let gw2i := g * w2i in
  let dugw2i := dug * w2i in
  let dugw2idt := dugw2i / dt in
  let b := 0 + gw2i - ddtw3 * dug in
  let a := wdi * 0 + dw * wdi * b + wdi * dugw2idt in
  sdis1 ← store (sdis st) 0 (a * sine + b * cosine + ddtw3 * dug - gw2i - dugw2i);
  svel1 ← store (svel st) 0
            (a * (wd * cosine - dw * sine) -
             b * (wd * sine + dw * cosine) -
             dugw2idt);
  sv ← svel1 !! 0%nat;
  sd ← sdis1 !! 0%nat;
  sacc1 ← store (sacc st) 0 (-2 * dw * sv - w2 * sd);
  Some (Resp sacc1 svel1 sdis1).

(** Lines 58-70. *)
Definition loop_body (c : consts) (ns : R) (acc : list R) (k : nat)
    (st : resp) : option resp :=
  let '(Consts w wd dt sine cosine w2 w2i wdi dw ddtw3) := c in
  g ← acc !! k;
  a1 ← acc !! (k + 1)%nat;
  let dug := (a1 - g) / ns in
  let gw2i := g * w2i in
  let dugw2i := dug * w2i in
  let dugw2idt := dugw2i / dt in
  pd ← sdis st !! (k - 1)%nat;
  let b := pd + gw2i - ddtw3 * dug in
  pv ← svel st !! (k - 1)%nat;
  let a := wdi * pv + dw * wdi * b + wdi * dugw2idt in
  sdis1 ← store (sdis st) k (a * sine + b * cosine + ddtw3 * dug - gw2i - dugw2i);
  svel1 ← store (svel st) k
            (a * (wd * cosine - dw * sine) -
             b * (wd * sine + dw * cosine) -
             dugw2idt);
  sv ← svel1 !! k;
  sd ← sdis1 !! k;
  sacc1 ← store (sacc st) k (-2 * dw * sv - w2 * sd);
  Some (Resp sacc1 svel1 sdis1).

Definition calculate_spectrals_c (times acc : list R) (np : Z)
    (period damping : R) (st : resp) : option resp :=
  t1 ← times !! 1%nat;
  t0 ← times !! 0%nat;
  let dt_in := t1 - t0 in
  let ns := substeps dt_in period in
  let c := setup dt_in ns period damping in
  st0 ← first_sample c ns acc st;
  for_loop (loop_body c ns acc) (seq 1 (Z.to_nat (np - 2))) st0.
End Code.
End Legacy.

(** ** The Konno-Ohmachi smoother *)

Section Smoothing.
Local Open Scope R_scope.

(** Lines 33-47: one input pair [j] against the target [fc]; the state
    is [(total, window_total)]. *)
Definition inner_body (spec freqs : list R)
    (bandwidth max_ratio min_ratio fc : R) (j : nat) (s : R * R)
    : option (R * R) :=
  let '(total, window_total) := s in
  freq ← freqs !! j;
  let frat := freq / fc in
  if Rltb freq 1e-6 || Rgtb frat max_ratio || Rltb frat min_ratio then
    Some (total, window_total)
  else
    let window :=
      if Rltb (fabs (freq - fc)) 1e-6 then 1
      else
        let x := bandwidth * log10 frat in
        let window := sin x / x in
        let window := window * window in
        window * window in
    sp ← spec !! j;
    Some (total + window * sp, window_total + window).

(** Lines 30-48: the two running sums for one target frequency. *)
Definition window_sums (spec freqs : list R) (np : Z)
    (bandwidth max_ratio min_ratio fc : R) : option (R * R) :=
  for_loop (inner_body spec freqs bandwidth max_ratio min_ratio fc)
           (seq 0 (Z.to_nat np)) (0, 0).

(** Lines 25-53: the body of the outer loop, at target index [i]. *)
Definition outer_body (spec freqs : list R) (np : Z) (ko_freqs : list R)
    (bandwidth max_ratio min_ratio : R) (i : nat) (ko_smooth : list sample)
    : option (list sample) :=
  fc ← ko_freqs !! i;
  if Rltb fc 1e-6 then store ko_smooth i NAN
  else
    s ← window_sums spec freqs np bandwidth max_ratio min_ratio fc;
    let '(total, window_total) := s in
    if Rgtb window_total 0 then store ko_smooth i (Num (total / window_total))
    else store ko_smooth i NAN.

Definition konno_ohmachi_c (spec freqs : list R) (np : Z)
    (ko_freqs : list R) (ko_smooth : list sample) (nko : Z)
    (bandwidth : R) : option (list sample) :=
  let max_ratio := pow 10 (3 / bandwidth) in
  let min_ratio := 1 / max_ratio in
  for_loop (outer_body spec freqs np ko_freqs bandwidth max_ratio min_ratio)
           (seq 0 (Z.to_nat nko)) ko_smooth.
End Smoothing.

(** ** The smoother in binary64

    The same function once more, line by line, over the primitive binary64
    numbers: [+ - * /], [<] and [fabs] are the IEEE operations, [NAN] is
    the float [nan], and [pow], [log10] and [sin], which the C library
    provides, are parameters. *)

Module F64.
Import Floats.
Section Libm.
Local Open Scope float_scope.
Variables (pow : float -> float -> float) (log10 sin : float -> float).

(** Lines 33-47. *)
#[warnings="-inexact-float"]
Definition inner_body (spec freqs : list float)
    (bandwidth max_ratio min_ratio fc : float) (j : nat) (s : float * float)
    : option (float * float) :=
  let '(total, window_total) := s in
  freq ← freqs !! j;
  let frat := freq / fc in
  if (freq <? 1e-6) || (max_ratio <? frat) || (frat <? min_ratio) then
    Some (total, window_total)
  else
    let window :=
      if abs (freq - fc) <? 1e-6 then 1
      else
        let x := bandwidth * log10 frat in
        let window := sin x / x in
        let window := window * window in
        window * window in
    sp ← spec !! j;
    Some (total + window * sp, window_total + window).

(** Lines 30-48. *)
Definition window_sums (spec freqs : list float) (np : Z)
    (bandwidth max_ratio min_ratio fc : float) : option (float * float) :=
  for_loop (inner_body spec freqs bandwidth max_ratio min_ratio fc)
           (seq 0 (Z.to_nat np)) (0, 0).

(** Lines 25-53. *)
#[warnings="-inexact-float"]
Definition outer_body (spec freqs : list float) (np : Z)
    (ko_freqs : list float) (bandwidth max_ratio min_ratio : float)
    (i : nat) (ko_smooth : list float) : option (list float) :=
  fc ← ko_freqs !! i;
  if fc <? 1e-6 then store ko_smooth i nan
  else
    s ← window_sums spec freqs np bandwidth max_ratio min_ratio fc;
    let '(total, window_total) := s in
    if 0 <? window_total then store ko_smooth i (total / window_total)
    else store ko_smooth i nan.

Definition konno_ohmachi_c (spec freqs : list float) (np : Z)
    (ko_freqs : list float) (ko_smooth : list float) (nko : Z)
    (bandwidth : float) : option (list float) :=
  let max_ratio := pow 10 (3 / bandwidth) in
  let min_ratio := 1 / max_ratio in
  for_loop (outer_body spec freqs np ko_freqs bandwidth max_ratio min_ratio)
           (seq 0 (Z.to_nat nko)) ko_smooth.
End Libm.
End F64.

(** ** The integrator as a recurrence *)

(** The triple [(sacc[k], svel[k], sdis[k])] that the statements of the
    loop compute once [g = acc[k]] and the forcing increment [dug] are
    set, from the previous displacement [pd] and velocity [pv]. *)
Definition step_values (c : consts) (pd pv g dug : R) : R * R * R :=
  let '(Consts w wd dt sine cosine w2 w2i wdi dw ddtw3) := c in
  let gw2i := (g * w2i)%R in
  let dugw2i := (dug * w2i)%R in
  let dugw2idt := (dugw2i / dt)%R in
  let b := (pd + gw2i - ddtw3 * dug)%R in
  let a := (wdi * pv + dw * wdi * b + wdi * dugw2idt)%R in
  let sd := (a * sine + b * cosine + ddtw3 * dug - gw2i - dugw2i)%R in
  let sv := (a * (wd * cosine - dw * sine) -
             b * (wd * sine + dw * cosine) - dugw2idt)%R in
  ((-2 * dw * sv - w2 * sd)%R, sv, sd).

(** One pass through the loop, from the samples [g = acc[k]] and
    [a1 = acc[k+1]]; [ns] is the forcing divisor (1 in the current file). *)
Definition kernel (c : consts) (ns pd pv g a1 : R) : R * R * R :=
  step_values c pd pv g ((a1 - g) / ns)%R.

(** The three stores of one iteration. *)
Definition write (st : resp) (k : nat) (v : R * R * R) : resp :=
  Resp (<[k := v.1.1]> (sacc st)) (<[k := v.1.2]> (svel st))
       (<[k := v.2]> (sdis st)).

Section Recurrence.
Variable F : R -> R -> R -> R -> R * R * R.
Variable acc : list R.

Definition sample_at (i : nat) : R := default 0%R (acc !! i).

(** The response after [k+1] steps, started at rest. *)
Fixpoint state_at (k : nat) : R * R * R :=
  match k with
  | O => F 0 0 (sample_at 0) (sample_at 1)
  | S j => F (state_at j).2 (state_at j).1.2
             (sample_at (S j)) (sample_at (S (S j)))
  end.

(** Buffers [st] hold the response at every index below [k] and the
    caller's values [st0] from [k] on. *)
Definition filled (st0 st : resp) (k : nat) : Prop :=
  length (sacc st) = length (sacc st0) /\
  length (svel st) = length (svel st0) /\
  length (sdis st) = length (sdis st0) /\
  (forall j, (j < k)%nat ->
     sacc st !! j = Some (state_at j).1.1 /\
     svel st !! j = Some (state_at j).1.2 /\
     sdis st !! j = Some (state_at j).2) /\
  (forall j, (k <= j)%nat ->
     sacc st !! j = sacc st0 !! j /\
     svel st !! j = svel st0 !! j /\
     sdis st !! j = sdis st0 !! j).
End Recurrence.

(** The value a buffer holds just before index [k]; the oscillator is at
    rest before index 0. *)
Definition prev (l : list R) (k : nat) : R :=
  match k with
  | O => 0%R
  | S j => default 0%R (l !! j)
  end.

(** The cells from index [n] on hold in [out] what they held in [st]. *)
Definition untouched_from (n : nat) (st out : resp) : Prop :=
  forall j : nat, (n <= j)%nat ->
    sacc out !! j = sacc st !! j /\
    svel out !! j = svel st !! j /\
    sdis out !! j = sdis st !! j.

(** The cells below index [n] hold the same numbers in [out] and [out']. *)
Definition agree_below (n : nat) (out out' : resp) : Prop :=
  forall k : nat, (k < n)%nat ->
    exists a v d : R,
      (sacc out !! k = Some a /\ sacc out' !! k = Some a) /\
      (svel out !! k = Some v /\ svel out' !! k = Some v) /\
      (sdis out !! k = Some d /\ sdis out' !! k = Some d).

(** The cells below index [n] all hold zero. *)
Definition zero_below (n : nat) (out : resp) : Prop :=
  forall k : nat, (k < n)%nat ->
    sacc out !! k = Some 0%R /\ svel out !! k = Some 0%R /\
    sdis out !! k = Some 0%R.

(** ** The formulas of the specification *)

Module Spec.
Section Oscillator.
Local Open Scope R_scope.
Variables dt period damping : R.

Definition w : R := 2 * PI / period.
Definition wd : R := w * sqrt (1 - damping ^ 2).
Definition e : R := exp (- damping * w * dt).
Definition sine : R := e * sin (wd * dt).
Definition cosine : R := e * cos (wd * dt).
Definition dw : R := damping * w.
Definition ddtw3 : R := 2 * damping / (dt * w ^ 3).

(** The two intermediate values, from the previous displacement and
    velocity. *)
Definition b_of (pd g dug : R) : R := pd + g / w ^ 2 - ddtw3 * dug.
Definition a_of (pv b dug : R) : R :=
  (pv + dw * b + dug / (w ^ 2 * dt)) / wd.

Definition sdis_of (a b g dug : R) : R :=
  a * sine + b * cosine + ddtw3 * dug - g / w ^ 2 - dug / w ^ 2.
Definition svel_of (a b dug : R) : R :=
  a * (wd * cosine - dw * sine) - b * (wd * sine + dw * cosine)
  - dug / (w ^ 2 * dt).
Definition sacc_of (sv sd : R) : R :=
  -2 * damping * w * sv - w ^ 2 * sd.
End Oscillator.

(** [floor(10*dt/period - 0.01) + 1], the sub-step count as the
    specification words it. *)
Definition ns_floor (dt period : R) : R :=
  (IZR (Zfloor (10 * dt / period - 0.01)) + 1)%R.

(** The sum of a list of numbers. *)
Definition Rsum (l : list R) : R := foldr Rplus 0%R l.

Section Smoother.
Local Open Scope R_scope.
Variables bandwidth fc : R.

Definition max_ratio : R := Rpower 10 (3 / bandwidth).
Definition min_ratio : R := 1 / max_ratio.

(** The input frequencies the sums range over. *)
Definition in_window (freq : R) : Prop :=
  1e-6 <= freq /\ min_ratio <= freq / fc <= max_ratio.

#[global] Instance in_window_dec (freq : R) : Decision (in_window freq).
Proof. unfold in_window. apply _. Defined.

(** The window weight of an input frequency. *)
Definition weight (freq : R) : R :=
  if decide (Rabs (freq - fc) < 1e-6) then 1
  else (sin (bandwidth * log10 (freq / fc)) /
        (bandwidth * log10 (freq / fc))) ^ 4.

(** The pairs [(freqs[j], spec[j])], [j < np], that lie in the window,
    in index order. *)
Definition contributing (freqs spec : list R) (np : nat) : list (R * R) :=
  filter (fun p => in_window p.1) (zip (take np freqs) (take np spec)).

Definition total_of (ps : list (R * R)) : R :=
  Rsum (map (fun p => weight p.1 * p.2) ps).
Definition window_total_of (ps : list (R * R)) : R :=
  Rsum (map (fun p => weight p.1) ps).
End Smoother.
End Spec.

(** The value the smoother stores for the target frequency [fc]
    (lines 26-53, without the store). *)
Definition smoothed (spec freqs : list R) (np : Z)
    (bandwidth max_ratio min_ratio fc : R) : option sample :=
  if Rltb fc 1e-6 then Some NAN
  else
    s ← window_sums spec freqs np bandwidth max_ratio min_ratio fc;
    Some (if Rgtb s.2 0 then Num (s.1 / s.2) else NAN).

(** The output buffer [ko] holds the smoothed value at every index below
    [k] and the caller's values [ko0] from [k] on. *)
Definition smoothed_below (spec freqs : list R) (np : Z) (ko_freqs : list R)
    (bandwidth : R) (ko0 ko : list sample) (k : nat) : Prop :=
  length ko = length ko0 /\
  (forall i : nat, (i < k)%nat ->
     exists fc v,
       ko_freqs !! i = Some fc /\
       smoothed spec freqs np bandwidth (pow 10 (3 / bandwidth))
                (1 / pow 10 (3 / bandwidth)) fc = Some v /\
       ko !! i = Some v) /\
  (forall i : nat, (k <= i)%nat -> ko !! i = ko0 !! i).

(** ** Vocabulary for further properties *)

(** Each of the three buffers has at least [n] cells. *)
Definition room (n : nat) (st : resp) : Prop :=
  (n <= length (sacc st))%nat /\ (n <= length (svel st))%nat /\
  (n <= length (sdis st))%nat.

(** Below index [n], the cells of [out3] are [a] times the cells of
    [out1] plus the cells of [out2]. *)
Definition combine_below (n : nat) (a : R) (out1 out2 out3 : resp) : Prop :=
  forall k : nat, (k < n)%nat ->
    exists a1 v1 d1 a2 v2 d2 : R,
      (sacc out1 !! k = Some a1 /\ svel out1 !! k = Some v1 /\
       sdis out1 !! k = Some d1) /\
      (sacc out2 !! k = Some a2 /\ svel out2 !! k = Some v2 /\
       sdis out2 !! k = Some d2) /\
      (sacc out3 !! k = Some (a * a1 + a2)%R /\
       svel out3 !! k = Some (a * v1 + v2)%R /\
       sdis out3 !! k = Some (a * d1 + d2)%R).

(** Below index [n], cell [k+1] of [out'] holds what cell [k] of [out]
    holds. *)
Definition delayed_below (n : nat) (out out' : resp) : Prop :=
  forall k : nat, (k < n)%nat ->
    exists a v d : R,
      (sacc out !! k = Some a /\ sacc out' !! S k = Some a) /\
      (svel out !! k = Some v /\ svel out' !! S k = Some v) /\
      (sdis out !! k = Some d /\ sdis out' !! S k = Some d).


(** [a * s1 + s2] on output cells; NaN wherever one of them is. *)
Definition sample_combine (a : R) (s1 s2 : sample) : sample :=
  match s1, s2 with
  | Num x, Num y => Num (a * x + y)
  | _, _ => NAN
  end.

(** The order of output cells: numbers by [<=], NaN only with NaN. *)
Definition sample_le (s1 s2 : sample) : Prop :=
  match s1, s2 with
  | Num x, Num y => (x <= y)%R
  | NAN, NAN => True
  | _, _ => False
  end.

(** The pairs [(freqs[j], spec[j])] for the indices [j] of a list. *)
Definition pairs_at (freqs spec : list R) (js : list nat) : list (R * R) :=
  (fun j => (sample_at freqs j, sample_at spec j)) <$> js.

(** The cell the smoother computes from the pairs [ps] in the window of
    the target [fc] (lines 26-29 and 49-53). *)
Definition cell_of (bandwidth fc : R) (ps : list (R * R)) : sample :=
  if Rltb fc 1e-6 then NAN
  else if Rgtb (Spec.window_total_of bandwidth fc ps) 0
       then Num (Spec.total_of bandwidth fc ps /
                 Spec.window_total_of bandwidth fc ps)
       else NAN.

(** ** Lemmas on arrays and loops *)

Lemma store_Some {A : Type} (a : list A) (k : nat) (v : A) :
  (k < length a)%nat -> store a k v = Some (<[k := v]> a).
Proof. intros Hk. unfold store. rewrite decide_True; done. Qed.

Lemma for_loop_ext {St : Type} (f g : nat -> St -> option St) ks st :
  (forall k s, f k s = g k s) -> for_loop f ks st = for_loop g ks st.
Proof.
  intros Hfg. revert st. induction ks as [|k ks IH]; intros st; simpl; [done|].
  rewrite Hfg. destruct (g k st); simpl; auto.
Qed.

(** The rule of the [for] loop: an invariant kept by every pass holds at
    the end, and the loop does not fail. *)
Lemma for_loop_invariant {St : Type} (I : nat -> St -> Prop)
    (body : nat -> St -> option St) (m : nat) : forall (k : nat) (st : St),
  I k st ->
  (forall j s, (k <= j < k + m)%nat -> I j s ->
     exists s', body j s = Some s' /\ I (S j) s') ->
  exists out, for_loop body (seq k m) st = Some out /\ I (k + m)%nat out.
Proof.
  induction m as [|m IH]; intros k st Hst Hbody.
  - exists st. by rewrite Nat.add_0_r.
  - destruct (Hbody k st ltac:(lia) Hst) as (s' & Hs' & HI).
    destruct (IH (S k) s' HI) as (out & Hout & HIout).
    { intros j s Hj. apply Hbody. lia. }
    exists out. simpl. rewrite Hs'. simpl. split; [done|].
    by replace (k + S m)%nat with (S k + m)%nat by lia.
Qed.

(** Runs the two stores, the two reads back and the third store of a
    pass, once the reads of [acc] and of the previous cells are known. *)
Ltac run_stores :=
  simpl; rewrite !store_Some by done; simpl;
  rewrite !list_lookup_insert_eq by done; simpl;
  rewrite store_Some by done; simpl.

(** The verbatim bodies are the kernel followed by three stores. *)
Lemma current_first_sample_eq c acc st g a1 :
  acc !! 0%nat = Some g -> acc !! 1%nat = Some a1 ->
  (0 < length (sacc st))%nat -> (0 < length (svel st))%nat ->
  (0 < length (sdis st))%nat ->
  Current.first_sample c acc st = Some (write st 0 (kernel c 1 0 0 g a1)).
Proof.
  intros Hg Ha1 Hsa Hsv Hsd. destruct c. unfold Current.first_sample, kernel, step_values, write.
  rewrite Hg, Ha1. run_stores. by rewrite !Rdiv_1_r.
Qed.

Lemma current_loop_body_eq c acc k st g a1 pd pv :
  acc !! k = Some g -> acc !! (k + 1)%nat = Some a1 ->
  sdis st !! (k - 1)%nat = Some pd -> svel st !! (k - 1)%nat = Some pv ->
  (k < length (sacc st))%nat -> (k < length (svel st))%nat ->
  (k < length (sdis st))%nat ->
  Current.loop_body c acc k st = Some (write st k (kernel c 1 pd pv g a1)).
Proof.
  intros Hg Ha1 Hpd Hpv Hsa Hsv Hsd. destruct c.
  unfold Current.loop_body, kernel, step_values, write.
  rewrite Hg, Ha1, Hpd, Hpv. run_stores. by rewrite !Rdiv_1_r.
Qed.

Lemma legacy_first_sample_eq c ns acc st g a1 :
  acc !! 0%nat = Some g -> acc !! 1%nat = Some a1 ->
  (0 < length (sacc st))%nat -> (0 < length (svel st))%nat ->
  (0 < length (sdis st))%nat ->
  Legacy.first_sample c ns acc st = Some (write st 0 (kernel c ns 0 0 g a1)).
Proof.
  intros Hg Ha1 Hsa Hsv Hsd. destruct c. unfold Legacy.first_sample, kernel, step_values, write.
  rewrite Hg, Ha1. by run_stores.
Qed.

Lemma legacy_loop_body_eq c ns acc k st g a1 pd pv :
  acc !! k = Some g -> acc !! (k + 1)%nat = Some a1 ->
  sdis st !! (k - 1)%nat = Some pd -> svel st !! (k - 1)%nat = Some pv ->
  (k < length (sacc st))%nat -> (k < length (svel st))%nat ->
  (k < length (sdis st))%nat ->
  Legacy.loop_body c ns acc k st = Some (write st k (kernel c ns pd pv g a1)).
Proof.
  intros Hg Ha1 Hpd Hpv Hsa Hsv Hsd. destruct c.
  unfold Legacy.loop_body, kernel, step_values, write.
  rewrite Hg, Ha1, Hpd, Hpv. by run_stores.
Qed.

(** ** The loop of the integrator fills the buffers with the recurrence *)

Section RecurrenceLemmas.
Variable F : R -> R -> R -> R -> R * R * R.
Variable acc : list R.

Lemma sample_at_lookup i :
  (i < length acc)%nat -> acc !! i = Some (sample_at acc i).
Proof.
  intros Hi. unfold sample_at.
  destruct (lookup_lt_is_Some_2 acc i Hi) as [x ->]. done.
Qed.

Lemma filled_start st0 : filled F acc st0 st0 0.
Proof. unfold filled. repeat split; intros; lia || done. Qed.

Lemma filled_write st0 st k :
  filled F acc st0 st k ->
  (k < length (sacc st))%nat -> (k < length (svel st))%nat ->
  (k < length (sdis st))%nat ->
  filled F acc st0 (write st k (state_at F acc k)) (S k).
Proof.
  intros (La & Lv & Ld & Hlo & Hhi) Hsa Hsv Hsd.
  unfold filled, write; simpl. rewrite !length_insert.
  repeat split; try done.
  - destruct (decide (j = k)) as [->|Hne].
    + by rewrite list_lookup_insert_eq.
    + rewrite list_lookup_insert_ne by done. apply Hlo. lia.
  - destruct (decide (j = k)) as [->|Hne].
    + by rewrite list_lookup_insert_eq.
    + rewrite list_lookup_insert_ne by done. apply Hlo. lia.
  - destruct (decide (j = k)) as [->|Hne].
    + by rewrite list_lookup_insert_eq.
    + rewrite list_lookup_insert_ne by done. apply Hlo. lia.
  - rewrite list_lookup_insert_ne by lia. apply Hhi. lia.
  - rewrite list_lookup_insert_ne by lia. apply Hhi. lia.
  - rewrite list_lookup_insert_ne by lia. apply Hhi. lia.
Qed.

Variable body : nat -> resp -> option resp.
Hypothesis body_eq : forall k st g a1 pd pv,
  acc !! k = Some g -> acc !! (k + 1)%nat = Some a1 ->
  sdis st !! (k - 1)%nat = Some pd -> svel st !! (k - 1)%nat = Some pv ->
  (k < length (sacc st))%nat -> (k < length (svel st))%nat ->
  (k < length (sdis st))%nat ->
  body k st = Some (write st k (F pd pv g a1)).

Lemma loop_filled st0 m k st :
  (1 <= k)%nat -> filled F acc st0 st k ->
  (k + m < length acc)%nat ->
  (k + m <= length (sacc st0))%nat -> (k + m <= length (svel st0))%nat ->
  (k + m <= length (sdis st0))%nat ->
  exists out, for_loop body (seq k m) st = Some out /\
              filled F acc st0 out (k + m).
Proof.
  intros Hk Hf Hacc Hsa Hsv Hsd.
  apply (for_loop_invariant (fun j s => filled F acc st0 s j)); [done|].
  intros j s Hj Hs. exists (write s j (state_at F acc j)).
  pose proof Hs as (La & Lv & Ld & Hlo & _).
  split; [|apply filled_write; [done|lia..]].
  destruct j as [|i]; [lia|].
  destruct (Hlo i ltac:(lia)) as (_ & Hpv & Hpd).
  erewrite body_eq; [reflexivity| | | | |lia|lia|lia].
  - apply sample_at_lookup. lia.
  - replace (S i + 1)%nat with (S (S i)) by lia. apply sample_at_lookup. lia.
  - replace (S i - 1)%nat with i by lia. exact Hpd.
  - replace (S i - 1)%nat with i by lia. exact Hpv.
Qed.
End RecurrenceLemmas.

Lemma current_run acc np dt period damping st :
  (2 <= np)%Z ->
  (Z.to_nat np <= length acc)%nat ->
  (Z.to_nat np <= length (sacc st))%nat ->
  (Z.to_nat np <= length (svel st))%nat ->
  (Z.to_nat np <= length (sdis st))%nat ->
  exists out,
    Current.calculate_spectrals_c acc np dt period damping st = Some out /\
    filled (kernel (Current.setup dt period damping) 1) acc st out
           (Z.to_nat np - 1).
Proof.
  intros Hnp Hacc Hsa Hsv Hsd.
  set (c := Current.setup dt period damping).
  unfold Current.calculate_spectrals_c. fold c.
  rewrite (current_first_sample_eq c acc st (sample_at acc 0) (sample_at acc 1));
    [|apply sample_at_lookup; lia|apply sample_at_lookup; lia|lia..].
  simpl.
  destruct (loop_filled (kernel c 1) acc (Current.loop_body c acc)
              (current_loop_body_eq c acc) st (Z.to_nat (np - 2)) 1
              (write st 0 (kernel c 1 0 0 (sample_at acc 0) (sample_at acc 1))))
    as (out & Hrun & Hout); try lia.
  - apply (filled_write (kernel c 1) acc st st 0); [apply filled_start|lia..].
  - exists out. split; [done|].
    replace (Z.to_nat np - 1)%nat with (1 + Z.to_nat (np - 2))%nat by lia. done.
Qed.

Lemma legacy_run times acc np period damping st t0 t1 :
  times !! 0%nat = Some t0 -> times !! 1%nat = Some t1 ->
  (2 <= np)%Z ->
  (Z.to_nat np <= length acc)%nat ->
  (Z.to_nat np <= length (sacc st))%nat ->
  (Z.to_nat np <= length (svel st))%nat ->
  (Z.to_nat np <= length (sdis st))%nat ->
  let ns := Legacy.substeps (t1 - t0) period in
  exists out,
    Legacy.calculate_spectrals_c times acc np period damping st = Some out /\
    filled (kernel (Legacy.setup (t1 - t0) ns period damping) ns) acc st out
           (Z.to_nat np - 1).
Proof.
  intros Ht0 Ht1 Hnp Hacc Hsa Hsv Hsd ns.
  set (c := Legacy.setup (t1 - t0) ns period damping).
  unfold Legacy.calculate_spectrals_c. rewrite Ht0, Ht1.
  cbn -[Legacy.first_sample Legacy.loop_body Legacy.setup Legacy.substeps for_loop].
  fold ns. fold c.
  rewrite (legacy_first_sample_eq c ns acc st (sample_at acc 0) (sample_at acc 1));
    [|apply sample_at_lookup; lia|apply sample_at_lookup; lia|lia..].
  simpl.
  destruct (loop_filled (kernel c ns) acc (Legacy.loop_body c ns acc)
              (legacy_loop_body_eq c ns acc) st (Z.to_nat (np - 2)) 1
              (write st 0 (kernel c ns 0 0 (sample_at acc 0) (sample_at acc 1))))
    as (out & Hrun & Hout); try lia.
  - apply (filled_write (kernel c ns) acc st st 0); [apply filled_start|lia..].
  - exists out. split; [done|].
    replace (Z.to_nat np - 1)%nat with (1 + Z.to_nat (np - 2))%nat by lia. done.
Qed.

(** ** The kernel computes the formulas of the specification *)

Section KernelAlgebra.
Local Open Scope R_scope.

Lemma legacy_setup_current dt_in ns period damping :
  Legacy.setup dt_in ns period damping =
  Current.setup (dt_in / ns) period damping.
Proof. reflexivity. Qed.

Lemma setup_spec h period damping :
  Current.setup h period damping =
  Consts (Spec.w period) (Spec.wd period damping) h
         (Spec.sine h period damping) (Spec.cosine h period damping)
         (Spec.w period ^ 2) (1 / Spec.w period ^ 2)
         (1 / Spec.wd period damping) (Spec.dw period damping)
         (Spec.ddtw3 h period damping).
Proof.
  unfold Current.setup, Spec.sine, Spec.cosine, Spec.e, Spec.wd, Spec.dw,
    Spec.ddtw3, Spec.w, M_PI.
  replace (damping ^ 2) with (damping * damping) by ring.
  set (w := 2 * PI / period). set (s := sqrt (1 - damping * damping)).
  replace (-1 * damping * w * h) with (- damping * w * h) by ring.
  replace (s * w) with (w * s) by ring.
  replace (w * w * w) with (w ^ 3) by ring.
  replace (w * w) with (w ^ 2) by ring.
  reflexivity.
Qed.

Lemma w_pos period : 0 < period -> 0 < Spec.w period.
Proof.
  intros Hp. unfold Spec.w. apply Rdiv_lt_0_compat; [|done].
  pose proof PI_RGT_0. lra.
Qed.

Lemma wd_pos period damping :
  0 < period -> 0 <= damping < 1 -> 0 < Spec.wd period damping.
Proof.
  intros Hp Hd. unfold Spec.wd. apply Rmult_lt_0_compat; [by apply w_pos|].
  apply sqrt_lt_R0. nra.
Qed.

Lemma kernel_formulas h ns period damping pd pv g a1 :
  0 < period -> 0 <= damping < 1 -> 0 < h ->
  let dug := (a1 - g) / ns in
  let b := Spec.b_of h period damping pd g dug in
  let a := Spec.a_of h period damping pv b dug in
  let sd := Spec.sdis_of h period damping a b g dug in
  let sv := Spec.svel_of h period damping a b dug in
  kernel (Current.setup h period damping) ns pd pv g a1 =
  (Spec.sacc_of period damping sv sd, sv, sd).
Proof.
  intros Hp Hd Hh dug b a sd sv.
  pose proof (w_pos period Hp) as Hw.
  pose proof (wd_pos period damping Hp Hd) as Hwd.
  rewrite setup_spec. unfold kernel, step_values. fold dug.
  subst sd sv a b.
  unfold Spec.sacc_of, Spec.sdis_of, Spec.svel_of, Spec.a_of, Spec.b_of,
    Spec.dw.
  set (w := Spec.w period) in *. set (wd := Spec.wd period damping) in *.
  set (sine := Spec.sine h period damping).
  set (cosine := Spec.cosine h period damping).
  set (ddtw3 := Spec.ddtw3 h period damping).
  f_equal; [f_equal|]; field; repeat split; lra.
Qed.
End KernelAlgebra.

Lemma filled_recurrence F acc st0 out n k :
  filled F acc st0 out n -> (k < n)%nat ->
  state_at F acc k =
  F (prev (sdis out) k) (prev (svel out) k)
    (sample_at acc k) (sample_at acc (S k)).
Proof.
  intros (_ & _ & _ & Hlo & _) Hk.
  destruct k as [|j]; simpl; [done|].
  destruct (Hlo j ltac:(lia)) as (_ & -> & ->). done.
Qed.

(** ** Properties of the integrator *)

(** C1.  The current integrator, on at least two samples with a positive
    period, a damping ratio in [0, 1) and a positive step: the call
    returns, and at every index [k] from 0 to [np-2], with [g = acc[k]],
    [dug = acc[k+1] - g] and [b], [a] formed from the displacement and
    velocity stored at [k-1] (zero before index 0), the three stored
    values are the formulas of the specification. *)
Theorem current_outputs_follow_recurrence
    (acc : list R) (np : Z) (dt period damping : R) (st : resp) :
  (2 <= np)%Z -> (0 < period)%R -> (0 <= damping < 1)%R -> (0 < dt)%R ->
  (Z.to_nat np <= length acc)%nat ->
  (Z.to_nat np <= length (sacc st))%nat ->
  (Z.to_nat np <= length (svel st))%nat ->
  (Z.to_nat np <= length (sdis st))%nat ->
  exists out,
    Current.calculate_spectrals_c acc np dt period damping st = Some out /\
    forall k : nat, (Z.of_nat k <= np - 2)%Z ->
      exists g a1 sv sd,
        acc !! k = Some g /\ acc !! (k + 1)%nat = Some a1 /\
        let dug := (a1 - g)%R in
        let b := Spec.b_of dt period damping (prev (sdis out) k) g dug in
        let a := Spec.a_of dt period damping (prev (svel out) k) b dug in
        sdis out !! k = Some sd /\ svel out !! k = Some sv /\
        sd = Spec.sdis_of dt period damping a b g dug /\
        sv = Spec.svel_of dt period damping a b dug /\
        sacc out !! k = Some (Spec.sacc_of period damping sv sd).
Proof.
  intros Hnp Hp Hd Hdt Hacc Hsa Hsv Hsd.
  destruct (current_run acc np dt period damping st) as (out & Hrun & Hf);
    try done.
  exists out. split; [done|]. intros k Hk.
  assert (Hlt : (k < Z.to_nat np - 1)%nat) by lia.
  pose proof (filled_recurrence _ _ _ _ _ k Hf Hlt) as Hrec.
  destruct Hf as (_ & _ & _ & Hlo & _).
  destruct (Hlo k Hlt) as (Ha & Hv & Hs).
  rewrite Hrec in Ha, Hv, Hs.
  pose proof (kernel_formulas dt 1 period damping (prev (sdis out) k)
                (prev (svel out) k) (sample_at acc k) (sample_at acc (S k))
                Hp Hd Hdt) as Hk'.
  cbv zeta in Hk'. rewrite Rdiv_1_r in Hk'. rewrite Hk' in Ha, Hv, Hs.
  simpl in Ha, Hv, Hs.
  eexists (sample_at acc k), (sample_at acc (S k)), _, _.
  split; [apply sample_at_lookup; lia|].
  split; [replace (k + 1)%nat with (S k) by lia; apply sample_at_lookup; lia|].
  cbv zeta. repeat split; try done.
Qed.

Lemma step_values_zero c pd pv :
  pd = 0%R -> pv = 0%R -> step_values c pd pv 0 0 = (0%R, 0%R, 0%R).
Proof.
  intros -> ->. destruct c. unfold step_values.
  f_equal; [f_equal|]; unfold Rdiv; ring.
Qed.

Lemma state_at_zero c ns acc n :
  (forall k, (k <= S n)%nat -> sample_at acc k = 0%R) ->
  forall k, (k <= n)%nat -> state_at (kernel c ns) acc k = (0%R, 0%R, 0%R).
Proof.
  intros Hz. induction k as [|k IH]; intros Hk; simpl.
  - rewrite !Hz by lia. unfold kernel.
    replace ((0 - 0) / ns)%R with 0%R by (unfold Rdiv; ring).
    by apply step_values_zero.
  - rewrite IH by lia. rewrite !Hz by lia. unfold kernel. simpl.
    replace ((0 - 0) / ns)%R with 0%R by (unfold Rdiv; ring).
    by apply step_values_zero.
Qed.

Lemma filled_zero c ns acc st out n :
  filled (kernel c ns) acc st out n ->
  (forall k, (k <= n)%nat -> acc !! k = Some 0%R) ->
  zero_below n out.
Proof.
  intros (_ & _ & _ & Hlo & _) Hacc k Hk.
  destruct (Hlo k Hk) as (Ha & Hv & Hd).
  assert (Hz : state_at (kernel c ns) acc k = (0%R, 0%R, 0%R)).
  { apply (state_at_zero c ns acc (n - 1)); [|lia].
    intros i Hi. unfold sample_at. rewrite Hacc by lia. done. }
  rewrite Hz in Ha, Hv, Hd. done.
Qed.

Lemma filled_untouched F acc st out n :
  filled F acc st out n -> untouched_from n st out.
Proof. intros (_ & _ & _ & _ & Hhi). exact Hhi. Qed.

Lemma filled_agree F acc st st' out out' n :
  filled F acc st out n -> filled F acc st' out' n -> agree_below n out out'.
Proof.
  intros (_ & _ & _ & Hlo & _) (_ & _ & _ & Hlo' & _) k Hk.
  destruct (Hlo k Hk) as (Ha & Hv & Hd).
  destruct (Hlo' k Hk) as (Ha' & Hv' & Hd').
  eexists _, _, _. repeat split; eassumption.
Qed.

(** C4.  Both integrators, on at least two samples with a positive
    period, a damping ratio in [0, 1) and a positive step: when
    [acc[0..np-1]] is zero, every cell of index 0 to [np-2] of the three
    output buffers is zero after the call. *)
Theorem zero_input_zero_response
    (times acc : list R) (np : Z) (dt period damping t0 t1 : R) (st : resp) :
  (2 <= np)%Z -> (0 < period)%R -> (0 <= damping < 1)%R ->
  (0 < dt)%R ->
  times !! 0%nat = Some t0 -> times !! 1%nat = Some t1 -> (t0 < t1)%R ->
  (Z.to_nat np <= length (sacc st))%nat ->
  (Z.to_nat np <= length (svel st))%nat ->
  (Z.to_nat np <= length (sdis st))%nat ->
  (forall k : nat, (k < Z.to_nat np)%nat -> acc !! k = Some 0%R) ->
  (exists out,
     Current.calculate_spectrals_c acc np dt period damping st = Some out /\
     zero_below (Z.to_nat np - 1) out) /\
  (exists out,
     Legacy.calculate_spectrals_c times acc np period damping st = Some out /\
     zero_below (Z.to_nat np - 1) out).
Proof.
  intros Hnp Hp Hd Hdt Ht0 Ht1 Hlt Hsa Hsv Hsd Hzero.
  assert (Hacc : (Z.to_nat np <= length acc)%nat).
  { assert (H : (Z.to_nat np - 1 < length acc)%nat); [|lia].
    apply lookup_lt_is_Some. rewrite Hzero by lia. eauto. }
  split.
  - destruct (current_run acc np dt period damping st) as (out & Hrun & Hf);
      try done.
    exists out. split; [done|].
    eapply filled_zero; [exact Hf|]. intros k Hk. apply Hzero. lia.
  - destruct (legacy_run times acc np period damping st t0 t1)
      as (out & Hrun & Hf); try done.
    exists out. split; [done|].
    eapply filled_zero; [exact Hf|]. intros k Hk. apply Hzero. lia.
Qed.

(** C5.  Both integrators, on at least two samples: the call leaves the
    cells of index [np-1] (and beyond) of [sacc], [svel] and [sdis] as
    the caller had them, and it writes the cells 0 to [np-2]: what they
    hold afterwards does not depend on what the buffers held before. *)
Theorem last_index_never_written
    (times acc : list R) (np : Z) (dt period damping t0 t1 : R)
    (st st' : resp) :
  (2 <= np)%Z ->
  times !! 0%nat = Some t0 -> times !! 1%nat = Some t1 ->
  (Z.to_nat np <= length acc)%nat ->
  (Z.to_nat np <= length (sacc st))%nat ->
  (Z.to_nat np <= length (svel st))%nat ->
  (Z.to_nat np <= length (sdis st))%nat ->
  (Z.to_nat np <= length (sacc st'))%nat ->
  (Z.to_nat np <= length (svel st'))%nat ->
  (Z.to_nat np <= length (sdis st'))%nat ->
  (exists out out',
     Current.calculate_spectrals_c acc np dt period damping st = Some out /\
     Current.calculate_spectrals_c acc np dt period damping st' = Some out' /\
     untouched_from (Z.to_nat np - 1) st out /\
     agree_below (Z.to_nat np - 1) out out') /\
  (exists out out',
     Legacy.calculate_spectrals_c times acc np period damping st = Some out /\
     Legacy.calculate_spectrals_c times acc np period damping st' = Some out' /\
     untouched_from (Z.to_nat np - 1) st out /\
     agree_below (Z.to_nat np - 1) out out').
Proof.
  intros Hnp Ht0 Ht1 Hacc Hsa Hsv Hsd Hsa' Hsv' Hsd'.
  split.
  - destruct (current_run acc np dt period damping st) as (out & Hrun & Hf);
      try done.
    destruct (current_run acc np dt period damping st') as (out' & Hrun' & Hf');
      try done.
    exists out, out'. split; [done|]. split; [done|]. split.
    + by eapply filled_untouched.
    + by eapply filled_agree.
  - destruct (legacy_run times acc np period damping st t0 t1)
      as (out & Hrun & Hf); try done.
    destruct (legacy_run times acc np period damping st' t0 t1)
      as (out' & Hrun' & Hf'); try done.
    exists out, out'. split; [done|]. split; [done|]. split.
    + by eapply filled_untouched.
    + by eapply filled_agree.
Qed.

(** ** The sub-step count of the legacy integrator *)

Section Substeps.
Local Open Scope R_scope.

(** In range the conversion of a non-negative number is its floor. *)
Lemma int_of_double_nonneg x :
  0 <= x -> x < 2147483648 -> int_of_double x = Zfloor x.
Proof.
  intros Hx Hr. unfold int_of_double. cbv zeta.
  rewrite (decide_True (P := 0 <= x)) by done.
  assert (H0 : (0 <= Zfloor x)%Z) by (apply Zfloor_lub; simpl; lra).
  assert (H1 : (Zfloor x < 2147483648)%Z).
  { apply lt_IZR. pose proof (Zfloor_bound x) as Hb. lra. }
  rewrite decide_True; [done|]. unfold INT_MIN, INT_MAX. lia.
Qed.

(** Out of range the model delivers [INT_MIN]. *)
Lemma int_of_double_out x : 2147483648 <= x -> int_of_double x = INT_MIN.
Proof.
  intros Hx. unfold int_of_double. cbv zeta.
  rewrite (decide_True (P := 0 <= x)) by lra.
  assert (H1 : (2147483648 <= Zfloor x)%Z) by (apply Zfloor_lub; simpl; lra).
  rewrite decide_False; [done|]. unfold INT_MIN, INT_MAX. lia.
Qed.

Lemma int_of_double_neg x : -1 < x < 0 -> int_of_double x = 0%Z.
Proof.
  intros Hx. unfold int_of_double. cbv zeta.
  rewrite (decide_False (P := 0 <= x)) by lra.
  unfold Zceil. rewrite (Zfloor_eq 0 (- x)) by (simpl; lra).
  rewrite decide_True; [done|]. unfold INT_MIN, INT_MAX. lia.
Qed.

Lemma int_of_double_small x : -1 < x < 1 -> int_of_double x = 0%Z.
Proof.
  intros Hx. destruct (Rle_dec 0 x) as [H0|H0].
  - rewrite int_of_double_nonneg by lra. apply Zfloor_eq. simpl. lra.
  - apply int_of_double_neg. lra.
Qed.

Lemma substeps_floor dt period :
  0 <= 10 * dt / period - 0.01 -> 10 * dt / period - 0.01 < 2147483648 ->
  Legacy.substeps dt period = Spec.ns_floor dt period.
Proof.
  intros Hx Hr. unfold Legacy.substeps, Spec.ns_floor.
  by rewrite int_of_double_nonneg.
Qed.

(** Where the conversion is out of range the count of the model is
    [INT_MIN + 1]. *)
Lemma substeps_out_of_range dt period :
  2147483648 <= 10 * dt / period - 0.01 ->
  Legacy.substeps dt period = -2147483647.
Proof.
  intros Hx. unfold Legacy.substeps. rewrite int_of_double_out by done.
  unfold INT_MIN. rewrite <- plus_IZR. done.
Qed.

Lemma substeps_one dt period :
  -1 < 10 * dt / period - 0.01 < 1 -> Legacy.substeps dt period = 1.
Proof.
  intros Hx. unfold Legacy.substeps. rewrite int_of_double_small by done.
  simpl. lra.
Qed.

Lemma ratio_pos dt period : 0 < period -> 0 < dt -> 0 < 10 * dt / period.
Proof. intros Hp Hdt. apply Rdiv_lt_0_compat; lra. Qed.

Lemma substeps_ge_1 dt period :
  0 < period -> 0 < dt -> 10 * dt / period - 0.01 < 2147483648 ->
  1 <= Legacy.substeps dt period.
Proof.
  intros Hp Hdt Hin. pose proof (ratio_pos dt period Hp Hdt) as Hr.
  destruct (Rle_dec 0 (10 * dt / period - 0.01)) as [H0|H0].
  - unfold Legacy.substeps. rewrite int_of_double_nonneg by done.
    assert (0 <= Zfloor (10 * dt / period - 0.01))%Z as Hz.
    { apply Zfloor_lub. simpl. lra. }
    apply IZR_le in Hz. lra.
  - rewrite substeps_one by lra. lra.
Qed.

(** In range or not, the count is not zero. *)
Lemma substeps_nonzero dt period :
  0 < period -> 0 < dt -> Legacy.substeps dt period <> 0.
Proof.
  intros Hp Hdt.
  destruct (Rlt_dec (10 * dt / period - 0.01) 2147483648) as [Hin|Hout].
  - pose proof (substeps_ge_1 dt period Hp Hdt Hin). lra.
  - rewrite substeps_out_of_range by lra. lra.
Qed.

(** With a positive period and step, one sub-step means exactly that
    [10*dt/period - 0.01] is below 1. *)
Lemma substeps_one_iff dt period :
  0 < period -> 0 < dt -> 10 * dt / period - 0.01 < 2147483648 ->
  Legacy.substeps dt period = 1 <-> 10 * dt / period - 0.01 < 1.
Proof.
  intros Hp Hdt Hin. pose proof (ratio_pos dt period Hp Hdt) as Hr. split.
  - intros Hns. destruct (Rlt_dec (10 * dt / period - 0.01) 1) as [|Hge];
      [done|exfalso].
    unfold Legacy.substeps in Hns.
    rewrite int_of_double_nonneg in Hns by lra.
    assert (1 <= Zfloor (10 * dt / period - 0.01))%Z as Hz.
    { apply Zfloor_lub. simpl. lra. }
    apply IZR_le in Hz. lra.
  - intros Hlt. apply substeps_one. lra.
Qed.
End Substeps.

(** Under the preconditions of the data model the program divides by
    nothing that is zero and takes the root of nothing negative. *)
Lemma current_divisors_nonzero dt period damping :
  (0 < period)%R -> (0 <= damping < 1)%R -> dt <> 0%R ->
  let c := Current.setup dt period damping in
  period <> 0%R /\ (0 <= 1 - damping * damping)%R /\
  c_w2 c <> 0%R /\ c_wd c <> 0%R /\ c_dt c <> 0%R /\
  (c_dt c * (c_w2 c * c_w c))%R <> 0%R.
Proof.
  intros Hp Hd Hdt c. subst c. rewrite setup_spec.
  cbn [c_w c_wd c_dt c_w2].
  pose proof (w_pos period Hp) as Hw.
  pose proof (wd_pos period damping Hp Hd) as Hwd.
  assert (Hw2 : (0 < Spec.w period ^ 2)%R) by (apply pow_lt; lra).
  assert (Hw3 : (0 < Spec.w period ^ 2 * Spec.w period)%R)
    by (apply Rmult_lt_0_compat; lra).
  assert (Hd3 : (dt * (Spec.w period ^ 2 * Spec.w period))%R <> 0%R)
    by (apply Rmult_integral_contrapositive_currified; [done|lra]).
  repeat split; try done; try lra; nra.
Qed.

Lemma legacy_divisors_nonzero dt_in period damping :
  (0 < period)%R -> (0 <= damping < 1)%R -> (0 < dt_in)%R ->
  let ns := Legacy.substeps dt_in period in
  let c := Legacy.setup dt_in ns period damping in
  ns <> 0%R /\ period <> 0%R /\ (0 <= 1 - damping * damping)%R /\
  c_w2 c <> 0%R /\ c_wd c <> 0%R /\ c_dt c <> 0%R /\
  (c_dt c * (c_w2 c * c_w c))%R <> 0%R.
Proof.
  intros Hp Hd Hdt ns c.
  pose proof (substeps_nonzero dt_in period Hp Hdt) as Hns. fold ns in Hns.
  split; [done|]. subst c. rewrite legacy_setup_current.
  apply current_divisors_nonzero; try done.
  unfold Rdiv. apply Rmult_integral_contrapositive_currified; [lra|].
  by apply Rinv_neq_0_compat.
Qed.

Lemma legacy_first_sample_one c acc st :
  Legacy.first_sample c 1 acc st = Current.first_sample c acc st.
Proof.
  destruct c. unfold Legacy.first_sample, Current.first_sample.
  destruct (acc !! 0%nat) as [g|]; simpl; [|done].
  destruct (acc !! 1%nat) as [a1|]; simpl; [|done].
  by rewrite !Rdiv_1_r.
Qed.

Lemma legacy_loop_body_one c acc k st :
  Legacy.loop_body c 1 acc k st = Current.loop_body c acc k st.
Proof.
  destruct c. unfold Legacy.loop_body, Current.loop_body.
  destruct (acc !! k) as [g|]; simpl; [|done].
  destruct (acc !! (k + 1)%nat) as [a1|]; simpl; [|done].
  by rewrite !Rdiv_1_r.
Qed.

(** C8.  Whenever the legacy integrator computes the sub-step count 1, it
    behaves exactly as the current integrator called with
    [dt = times[1] - times[0]]: same outcome, same three buffers. *)
Theorem legacy_one_substep_is_current
    (times acc : list R) (np : Z) (period damping t0 t1 : R) (st : resp) :
  times !! 0%nat = Some t0 -> times !! 1%nat = Some t1 ->
  Legacy.substeps (t1 - t0) period = 1%R ->
  Legacy.calculate_spectrals_c times acc np period damping st =
  Current.calculate_spectrals_c acc np (t1 - t0) period damping st.
Proof.
  intros Ht0 Ht1 Hns.
  unfold Legacy.calculate_spectrals_c, Current.calculate_spectrals_c.
  rewrite Ht0, Ht1.
  cbn -[Legacy.first_sample Legacy.loop_body Legacy.setup Legacy.substeps
        Current.first_sample Current.loop_body Current.setup for_loop].
  rewrite Hns, legacy_setup_current, Rdiv_1_r, legacy_first_sample_one.
  destruct (Current.first_sample _ acc st) as [st0|]; simpl; [|done].
  apply for_loop_ext. intros k s. apply legacy_loop_body_one.
Qed.

(** C7, as the specification words it, fails: at [times = [0, 0.005]]
    and [period = 10] the program computes one sub-step, where
    [floor(10*dt/period - 0.01) + 1] is zero. *)
Lemma substeps_is_not_floor :
  (0 < 10)%R /\ (0 < 0.005)%R /\
  Legacy.substeps (0.005 - 0) 10 = 1%R /\
  Spec.ns_floor (0.005 - 0) 10 = 0%R /\
  Legacy.substeps (0.005 - 0) 10 <> Spec.ns_floor (0.005 - 0) 10.
Proof.
  assert (H1 : Legacy.substeps (0.005 - 0) 10 = 1%R) by (apply substeps_one; lra).
  assert (H0 : Spec.ns_floor (0.005 - 0) 10 = 0%R).
  { unfold Spec.ns_floor.
    rewrite (Zfloor_eq (-1) (10 * (0.005 - 0) / 10 - 0.01)); simpl; lra. }
  split; [lra|]. split; [lra|]. split; [done|]. split; [done|].
  rewrite H1, H0. lra.
Qed.

(** The same input in binary64 arithmetic: the argument of the conversion
    lies strictly between -1 and 0, so that [(int)] yields 0 there too. *)
Module Binary64.
Import Floats.

#[warnings="-inexact-float"]
Lemma substeps_argument_binary64 :
  (PrimFloat.ltb (10 * (0.005 - 0) / 10 - 0.01) 0 &&
   PrimFloat.ltb (-1) (10 * (0.005 - 0) / 10 - 0.01))%float = true.
Proof. reflexivity. Qed.
End Binary64.

(** C7, amended.  The legacy integrator with a positive period and
    [times[1] > times[0]], [dt = times[1] - times[0]], where the value
    [x] of [10*dt/period - 0.01] is in the range of the conversion to
    [int] ([x < 2^31]): the sub-step count is the conversion to [int]
    (toward zero) of [x], plus one, that is [max(floor(x), 0) + 1]: the
    floor formula from [x >= 0] on and 1 below; the constants of the call
    are those of step [dt/ns]; and the cells of index [k] hold one step
    of the recurrence with forcing increment [(acc[k+1] - acc[k]) / ns].
    Here [x] is the real number; nothing is said of a conversion that is
    out of range. *)
Theorem legacy_substeps_truncate
    (times acc : list R) (np : Z) (period damping t0 t1 : R) (st : resp) :
  times !! 0%nat = Some t0 -> times !! 1%nat = Some t1 ->
  (0 < period)%R -> (t0 < t1)%R ->
  (10 * (t1 - t0) / period - 0.01 < 2147483648)%R ->
  (2 <= np)%Z ->
  (Z.to_nat np <= length acc)%nat ->
  (Z.to_nat np <= length (sacc st))%nat ->
  (Z.to_nat np <= length (svel st))%nat ->
  (Z.to_nat np <= length (sdis st))%nat ->
  let dt := (t1 - t0)%R in
  let x := (10 * dt / period - 0.01)%R in
  let ns := Legacy.substeps dt period in
  ns = (IZR (Z.max (Zfloor x) 0) + 1)%R /\
  ((0 <= x)%R -> ns = Spec.ns_floor dt period) /\
  ((x < 0)%R -> ns = 1%R) /\
  Legacy.setup dt ns period damping = Current.setup (dt / ns) period damping /\
  exists out,
    Legacy.calculate_spectrals_c times acc np period damping st = Some out /\
    forall k : nat, (Z.of_nat k <= np - 2)%Z ->
      exists g a1 sa sv sd,
        acc !! k = Some g /\ acc !! (k + 1)%nat = Some a1 /\
        sacc out !! k = Some sa /\ svel out !! k = Some sv /\
        sdis out !! k = Some sd /\
        (sa, sv, sd) =
        step_values (Current.setup (dt / ns) period damping)
          (prev (sdis out) k) (prev (svel out) k) g ((a1 - g) / ns)%R.
Proof.
  intros Ht0 Ht1 Hp Hlt Hin Hnp Hacc Hsa Hsv Hsd dt x ns.
  assert (Hdt : (0 < dt)%R) by (unfold dt; lra).
  pose proof (ratio_pos dt period Hp Hdt) as Hr.
  assert (Hneg : (x < 0)%R -> ns = 1%R).
  { intros Hx. apply substeps_one. unfold x in Hx. lra. }
  assert (Hpos : (0 <= x)%R -> ns = Spec.ns_floor dt period).
  { intros Hx. by apply substeps_floor. }
  split; [|split; [done|split; [done|split; [done|]]]].
  - destruct (Rle_dec 0 x) as [Hx|Hx].
    + rewrite Hpos by done. unfold Spec.ns_floor. fold x.
      rewrite Z.max_l; [done|]. apply Zfloor_lub. simpl. lra.
    + rewrite Hneg by lra.
      rewrite (Zfloor_eq (-1) x) by (unfold x in *; simpl; lra).
      replace (Z.max (-1) 0) with 0%Z by lia. lra.
  - destruct (legacy_run times acc np period damping st t0 t1)
      as (out & Hrun & Hf); try done.
    fold dt ns in Hf. rewrite legacy_setup_current in Hf.
    exists out. split; [done|]. intros k Hk.
    assert (Hkn : (k < Z.to_nat np - 1)%nat) by lia.
    pose proof (filled_recurrence _ _ _ _ _ k Hf Hkn) as Hrec.
    destruct Hf as (_ & _ & _ & Hlo & _).
    destruct (Hlo k Hkn) as (Ha & Hv & Hs).
    exists (sample_at acc k), (sample_at acc (S k)).
    eexists _, _, _.
    split; [apply sample_at_lookup; lia|].
    split; [replace (k + 1)%nat with (S k) by lia; apply sample_at_lookup; lia|].
    split; [exact Ha|]. split; [exact Hv|]. split; [exact Hs|].
    rewrite Hrec. unfold kernel.
    by destruct (step_values _ _ _ _ _) as [[? ?] ?].
Qed.

(** ** The sums of the smoother *)

Section SmootherSums.
Local Open Scope R_scope.
Variables (spec freqs : list R) (bandwidth fc : R).

Lemma total_of_cons p ps :
  Spec.total_of bandwidth fc (p :: ps) =
  Spec.weight bandwidth fc p.1 * p.2 + Spec.total_of bandwidth fc ps.
Proof. reflexivity. Qed.

Lemma window_total_of_cons p ps :
  Spec.window_total_of bandwidth fc (p :: ps) =
  Spec.weight bandwidth fc p.1 + Spec.window_total_of bandwidth fc ps.
Proof. reflexivity. Qed.

(** One pass of the inner loop adds the pair [j] when it is in the window
    and leaves the sums alone otherwise. *)
Lemma inner_body_eq j t wt f s :
  freqs !! j = Some f -> spec !! j = Some s ->
  inner_body spec freqs bandwidth (pow 10 (3 / bandwidth))
    (1 / pow 10 (3 / bandwidth)) fc j (t, wt) =
  Some (if decide (Spec.in_window bandwidth fc f)
        then (t + Spec.weight bandwidth fc f * s,
              wt + Spec.weight bandwidth fc f)
        else (t, wt)).
Proof.
  intros Hf Hs. unfold inner_body. rewrite Hf. simpl.
  unfold Rltb, Rgtb, pow, fabs. fold (Spec.max_ratio bandwidth).
  fold (Spec.min_ratio bandwidth).
  destruct (decide (Spec.in_window bandwidth fc f)) as [Hin|Hout].
  - destruct Hin as (H1 & H2 & H3).
    rewrite !bool_decide_eq_false_2 by lra. simpl. rewrite Hs. simpl.
    unfold Spec.weight. do 2 f_equal.
    + case_bool_decide; destruct (decide _); try done; try lra; ring.
    + case_bool_decide; destruct (decide _); try done; try lra; ring.
  - unfold Spec.in_window in Hout.
    do 3 case_bool_decide; simpl; try done. exfalso. apply Hout. lra.
Qed.

Lemma inner_loop_spec m : forall j0 t wt,
  (j0 + m <= length freqs)%nat -> (j0 + m <= length spec)%nat ->
  for_loop (inner_body spec freqs bandwidth (pow 10 (3 / bandwidth))
              (1 / pow 10 (3 / bandwidth)) fc) (seq j0 m) (t, wt) =
  Some (t + Spec.total_of bandwidth fc
              (filter (fun p => Spec.in_window bandwidth fc p.1)
                 (zip (take m (drop j0 freqs)) (take m (drop j0 spec)))),
        wt + Spec.window_total_of bandwidth fc
               (filter (fun p => Spec.in_window bandwidth fc p.1)
                  (zip (take m (drop j0 freqs)) (take m (drop j0 spec))))).
Proof.
  induction m as [|m IH]; intros j0 t wt Hlf Hls.
  - simpl. unfold Spec.total_of, Spec.window_total_of. simpl.
    by rewrite !Rplus_0_r.
  - destruct (lookup_lt_is_Some_2 freqs j0 ltac:(lia)) as [f Hf].
    destruct (lookup_lt_is_Some_2 spec j0 ltac:(lia)) as [s Hs].
    rewrite (drop_S _ _ _ Hf), (drop_S _ _ _ Hs).
    cbn [seq for_loop take zip zip_with].
    rewrite (inner_body_eq j0 t wt f s Hf Hs). simpl.
    destruct (decide (Spec.in_window bandwidth fc f)) as [Hin|Hout].
    + rewrite IH by lia. rewrite filter_cons_True by done.
      rewrite total_of_cons, window_total_of_cons. simpl.
      f_equal. f_equal; ring.
    + rewrite IH by lia. by rewrite filter_cons_False by done.
Qed.

Lemma window_sums_spec (np : Z) :
  (Z.to_nat np <= length freqs)%nat -> (Z.to_nat np <= length spec)%nat ->
  window_sums spec freqs np bandwidth (pow 10 (3 / bandwidth))
    (1 / pow 10 (3 / bandwidth)) fc =
  Some (Spec.total_of bandwidth fc
          (Spec.contributing bandwidth fc freqs spec (Z.to_nat np)),
        Spec.window_total_of bandwidth fc
          (Spec.contributing bandwidth fc freqs spec (Z.to_nat np))).
Proof.
  intros Hlf Hls. unfold window_sums.
  rewrite inner_loop_spec by lia. rewrite !drop_0, !Rplus_0_l. done.
Qed.
End SmootherSums.

(** ** The outer loop of the smoother *)

Lemma outer_body_eq spec freqs np ko_freqs bandwidth max_ratio min_ratio i ko :
  outer_body spec freqs np ko_freqs bandwidth max_ratio min_ratio i ko =
  fc ← ko_freqs !! i;
  v ← smoothed spec freqs np bandwidth max_ratio min_ratio fc;
  store ko i v.
Proof.
  unfold outer_body, smoothed.
  destruct (ko_freqs !! i) as [fc|]; simpl; [|done].
  destruct (Rltb fc 1e-6); simpl; [done|].
  destruct (window_sums _ _ _ _ _ _ _) as [[t wt]|]; simpl; [|done].
  by destruct (Rgtb wt 0).
Qed.

Lemma smoothed_spec spec freqs np bandwidth fc :
  (Z.to_nat np <= length freqs)%nat -> (Z.to_nat np <= length spec)%nat ->
  smoothed spec freqs np bandwidth (pow 10 (3 / bandwidth))
    (1 / pow 10 (3 / bandwidth)) fc =
  Some (if Rltb fc 1e-6 then NAN
        else
          let ps := Spec.contributing bandwidth fc freqs spec (Z.to_nat np) in
          if Rgtb (Spec.window_total_of bandwidth fc ps) 0
          then Num (Spec.total_of bandwidth fc ps /
                    Spec.window_total_of bandwidth fc ps)
          else NAN).
Proof.
  intros Hlf Hls. unfold smoothed.
  destruct (Rltb fc 1e-6); [done|].
  by rewrite window_sums_spec.
Qed.

Lemma konno_run spec freqs np ko_freqs ko_smooth nko bandwidth :
  (Z.to_nat np <= length freqs)%nat -> (Z.to_nat np <= length spec)%nat ->
  (Z.to_nat nko <= length ko_freqs)%nat ->
  (Z.to_nat nko <= length ko_smooth)%nat ->
  exists out,
    konno_ohmachi_c spec freqs np ko_freqs ko_smooth nko bandwidth = Some out /\
    smoothed_below spec freqs np ko_freqs bandwidth ko_smooth out
                   (Z.to_nat nko).
Proof.
  intros Hlf Hls Hlk Hlo. unfold konno_ohmachi_c.
  apply (for_loop_invariant
           (fun k ko => smoothed_below spec freqs np ko_freqs bandwidth
                          ko_smooth ko k)
           _ (Z.to_nat nko) 0%nat).
  - split; [done|]. split; [intros; lia|done].
  - intros j ko Hj (Hlen & Hlo' & Hhi).
    destruct (lookup_lt_is_Some_2 ko_freqs j ltac:(lia)) as [fc Hfc].
    rewrite outer_body_eq, Hfc. simpl.
    rewrite (smoothed_spec spec freqs np bandwidth fc Hlf Hls). simpl.
    rewrite store_Some by lia. eexists. split; [done|].
    split; [by rewrite length_insert|]. split.
    + intros i Hi. destruct (decide (i = j)) as [->|Hne].
      * exists fc. eexists. split; [done|].
        split; [by apply smoothed_spec|].
        rewrite list_lookup_insert_eq by lia. done.
      * rewrite list_lookup_insert_ne by done. apply Hlo'. lia.
    + intros i Hi. rewrite list_lookup_insert_ne by lia. apply Hhi. lia.
Qed.

Lemma Rgtb_true x y : (x > y)%R -> Rgtb x y = true.
Proof. intros H. unfold Rgtb. by rewrite bool_decide_eq_true_2. Qed.

Lemma Rgtb_false x y : ~ (x > y)%R -> Rgtb x y = false.
Proof. intros H. unfold Rgtb. by rewrite bool_decide_eq_false_2. Qed.

Lemma Rltb_true x y : (x < y)%R -> Rltb x y = true.
Proof. intros H. unfold Rltb. by rewrite bool_decide_eq_true_2. Qed.

Lemma Rltb_false x y : ~ (x < y)%R -> Rltb x y = false.
Proof. intros H. unfold Rltb. by rewrite bool_decide_eq_false_2. Qed.

(** The cell of a target index after the call. *)
Lemma konno_cell spec freqs np ko_freqs ko_smooth nko bandwidth out i fc :
  smoothed_below spec freqs np ko_freqs bandwidth ko_smooth out
                 (Z.to_nat nko) ->
  (Z.of_nat i < nko)%Z -> ko_freqs !! i = Some fc ->
  exists v,
    smoothed spec freqs np bandwidth (pow 10 (3 / bandwidth))
      (1 / pow 10 (3 / bandwidth)) fc = Some v /\
    out !! i = Some v.
Proof.
  intros (_ & Hlo & _) Hi Hfc.
  destruct (Hlo i ltac:(lia)) as (fc' & v & Hfc' & Hv & Hout).
  rewrite Hfc in Hfc'. simplify_eq. by exists v.
Qed.

(** C2.  The smoother with a positive bandwidth and a target frequency
    [fc = ko_freqs[i] >= 1e-6]: the two sums of the inner loop are the
    sums, over the pairs [(freqs[j], spec[j])] with [freqs[j] >= 1e-6] and
    [min_ratio <= freqs[j]/fc <= max_ratio], of [weight * spec[j]] and of
    [weight], where the weight is 1 when [|freqs[j] - fc| < 1e-6] and the
    fourth power of [sin x / x], [x = bandwidth * log10 (freqs[j]/fc)],
    otherwise; [max_ratio = 10^(3/bandwidth)], [min_ratio = 1/max_ratio];
    the other pairs add nothing.  The cell [ko_smooth[i]] is computed from
    these two sums. *)
Theorem window_sums_range_over_window
    (spec freqs : list R) (np : Z) (ko_freqs : list R)
    (ko_smooth : list sample) (nko : Z) (bandwidth : R) (i : nat) (fc : R) :
  (0 < bandwidth)%R -> ko_freqs !! i = Some fc -> (1e-6 <= fc)%R ->
  (Z.of_nat i < nko)%Z ->
  (Z.to_nat np <= length freqs)%nat -> (Z.to_nat np <= length spec)%nat ->
  (Z.to_nat nko <= length ko_freqs)%nat ->
  (Z.to_nat nko <= length ko_smooth)%nat ->
  let ps := Spec.contributing bandwidth fc freqs spec (Z.to_nat np) in
  let total := Spec.total_of bandwidth fc ps in
  let window_total := Spec.window_total_of bandwidth fc ps in
  window_sums spec freqs np bandwidth (Spec.max_ratio bandwidth)
    (Spec.min_ratio bandwidth) fc = Some (total, window_total) /\
  exists out,
    konno_ohmachi_c spec freqs np ko_freqs ko_smooth nko bandwidth = Some out /\
    out !! i = Some (if decide (window_total > 0)%R
                     then Num (total / window_total) else NAN).
Proof.
  intros _ Hfc Hge Hi Hlf Hls Hlk Hlo ps total window_total.
  split; [by apply window_sums_spec|].
  destruct (konno_run spec freqs np ko_freqs ko_smooth nko bandwidth)
    as (out & Hrun & Hout); try done.
  exists out. split; [done|].
  destruct (konno_cell _ _ _ _ _ _ _ _ _ _ Hout Hi Hfc) as (v & Hv & ->).
  rewrite smoothed_spec in Hv by done. simplify_eq.
  rewrite Rltb_false by lra. cbv zeta. fold ps. fold window_total. fold total.
  destruct (decide (window_total > 0)%R).
  - by rewrite Rgtb_true.
  - by rewrite Rgtb_false.
Qed.

Section EmptyWindow.
Local Open Scope R_scope.

Lemma max_ratio_pos bandwidth : 0 < Spec.max_ratio bandwidth.
Proof. unfold Spec.max_ratio, Rpower. apply exp_pos. Qed.


(** For a positive target, the test on the ratio [freq / fc] is the test
    of [freq] against the ends [fc * min_ratio] and [fc * max_ratio]. *)
Lemma in_window_bounds bandwidth fc f :
  0 < fc ->
  Spec.in_window bandwidth fc f <->
  1e-6 <= f /\
  fc * Spec.min_ratio bandwidth <= f <= fc * Spec.max_ratio bandwidth.
Proof.
  intros Hfc. unfold Spec.in_window.
  set (lo := Spec.min_ratio bandwidth). set (hi := Spec.max_ratio bandwidth).
  assert (Hr : f = f / fc * fc) by (field; lra).
  split; intros (H1 & H2 & H3); (split; [done|]).
  - split.
    + rewrite Hr. rewrite (Rmult_comm fc lo).
      apply Rmult_le_compat_r; lra.
    + rewrite Hr. rewrite (Rmult_comm fc hi).
      apply Rmult_le_compat_r; lra.
  - split.
    + apply (Rmult_le_reg_r fc); [done|]. rewrite <- Hr. lra.
    + apply (Rmult_le_reg_r fc); [done|]. rewrite <- Hr. lra.
Qed.

Lemma contributing_nil bandwidth fc freqs spec np :
  (forall j f, (j < np)%nat -> freqs !! j = Some f ->
     ~ Spec.in_window bandwidth fc f) ->
  Spec.contributing bandwidth fc freqs spec np = [].
Proof.
  intros Hout. apply elem_of_nil_inv. intros [f s] Hin.
  apply list_elem_of_filter in Hin as [Hw Hin]. simpl in Hw.
  apply elem_of_zip_l in Hin. apply elem_of_take in Hin as (j & Hj & Hlt).
  by apply (Hout j f).
Qed.
End EmptyWindow.

(** C3.  The smoother, at a target index [i] with [fc = ko_freqs[i] >=
    1e-6], with [total] and [window_total] the sums the inner loop
    returns: the call stores [total / window_total] in [ko_smooth[i]] when
    [window_total > 0] and NaN otherwise; in particular, when every
    [freqs[j]] is below 1e-6 or outside [fc*min_ratio, fc*max_ratio],
    [window_total] is 0 and [ko_smooth[i]] is NaN. *)
Theorem window_total_decides_nan
    (spec freqs : list R) (np : Z) (ko_freqs : list R)
    (ko_smooth : list sample) (nko : Z) (bandwidth : R) (i : nat) (fc : R) :
  ko_freqs !! i = Some fc -> (1e-6 <= fc)%R -> (Z.of_nat i < nko)%Z ->
  (Z.to_nat np <= length freqs)%nat -> (Z.to_nat np <= length spec)%nat ->
  (Z.to_nat nko <= length ko_freqs)%nat ->
  (Z.to_nat nko <= length ko_smooth)%nat ->
  exists out total window_total,
    konno_ohmachi_c spec freqs np ko_freqs ko_smooth nko bandwidth = Some out /\
    window_sums spec freqs np bandwidth (pow 10 (3 / bandwidth))
      (1 / pow 10 (3 / bandwidth)) fc = Some (total, window_total) /\
    ((window_total > 0)%R -> out !! i = Some (Num (total / window_total))) /\
    (~ (window_total > 0)%R -> out !! i = Some NAN) /\
    ((forall j f, (j < Z.to_nat np)%nat -> freqs !! j = Some f ->
        (f < 1e-6)%R \/ (f < fc * Spec.min_ratio bandwidth)%R \/
        (f > fc * Spec.max_ratio bandwidth)%R) ->
     window_total = 0%R /\ out !! i = Some NAN).
Proof.
  intros Hfc Hge Hi Hlf Hls Hlk Hlo.
  destruct (konno_run spec freqs np ko_freqs ko_smooth nko bandwidth)
    as (out & Hrun & Hout); try done.
  destruct (konno_cell _ _ _ _ _ _ _ _ _ _ Hout Hi Hfc) as (v & Hv & Hcell).
  pose proof (window_sums_spec spec freqs bandwidth fc np Hlf Hls) as Hsums.
  unfold smoothed in Hv. rewrite Rltb_false in Hv by lra.
  rewrite Hsums in Hv. simpl in Hv.
  eexists out, _, _. split; [done|]. split; [exact Hsums|].
  assert (Hnan : ~ (Spec.window_total_of bandwidth fc
                      (Spec.contributing bandwidth fc freqs spec (Z.to_nat np))
                    > 0)%R -> out !! i = Some NAN).
  { intros Hwt. rewrite Rgtb_false in Hv by done. by simplify_eq. }
  split; [|split; [done|]].
  - intros Hwt. rewrite Rgtb_true in Hv by done. by simplify_eq.
  - intros Hall.
    assert (Hnil : Spec.contributing bandwidth fc freqs spec (Z.to_nat np) = []).
    { apply contributing_nil. intros j f Hj Hf Hin.
      apply in_window_bounds in Hin; [|lra].
      destruct (Hall j f Hj Hf) as [H|[H|H]]; lra. }
    rewrite Hnil in Hnan |- *. unfold Spec.window_total_of in *. simpl in *.
    split; [done|]. apply Hnan. lra.
Qed.

(** C6.  The smoother, at a target index [i] with [ko_freqs[i] < 1e-6]
    (zero and negative values included): the call stores NaN in
    [ko_smooth[i]], and that pass of the outer loop is this store alone,
    whatever [spec], [freqs] and [np] are: no input pair is read. *)
Theorem tiny_target_gives_nan
    (spec freqs : list R) (np : Z) (ko_freqs : list R)
    (ko_smooth : list sample) (nko : Z) (bandwidth : R) (i : nat) (fc : R) :
  ko_freqs !! i = Some fc -> (fc < 1e-6)%R -> (Z.of_nat i < nko)%Z ->
  (Z.to_nat np <= length freqs)%nat -> (Z.to_nat np <= length spec)%nat ->
  (Z.to_nat nko <= length ko_freqs)%nat ->
  (Z.to_nat nko <= length ko_smooth)%nat ->
  (exists out,
     konno_ohmachi_c spec freqs np ko_freqs ko_smooth nko bandwidth = Some out /\
     out !! i = Some NAN) /\
  (forall (spec' freqs' : list R) (np' : Z) (ko : list sample),
     outer_body spec' freqs' np' ko_freqs bandwidth (pow 10 (3 / bandwidth))
       (1 / pow 10 (3 / bandwidth)) i ko = store ko i NAN).
Proof.
  intros Hfc Hlt Hi Hlf Hls Hlk Hlo. split.
  - destruct (konno_run spec freqs np ko_freqs ko_smooth nko bandwidth)
      as (out & Hrun & Hout); try done.
    destruct (konno_cell _ _ _ _ _ _ _ _ _ _ Hout Hi Hfc) as (v & Hv & Hcell).
    unfold smoothed in Hv. rewrite Rltb_true in Hv by done. simplify_eq.
    by exists out.
  - intros spec' freqs' np' ko. unfold outer_body. rewrite Hfc. simpl.
    by rewrite Rltb_true.
Qed.

(** ** The window weights *)

Section Weights.
Local Open Scope R_scope.

Lemma sin_abs_le x : - Rabs x <= sin x <= Rabs x.
Proof.
  pose proof (SIN_bound x) as Hb.
  destruct (Rtotal_order x 0) as [Hneg|[->|Hpos]].
  - rewrite Rabs_left by done. pose proof (sin_gt_x x Hneg).
    destruct (Rle_dec x (-1)) as [Hle|Hgt]; [lra|].
    assert (0 < sin (- x)) by (apply sin_pos_tech; lra).
    rewrite sin_neg in *. lra.
  - rewrite sin_0, Rabs_R0. lra.
  - rewrite Rabs_right by lra. pose proof (sin_lt_x x Hpos).
    destruct (Rle_dec 1 x) as [Hle|Hgt]; [lra|].
    assert (0 < sin x) by (apply sin_pos_tech; lra). lra.
Qed.

Lemma sinc_sq_le_1 x : 0 <= (sin x / x) * (sin x / x) <= 1.
Proof.
  split; [nra|].
  destruct (Req_dec x 0) as [->|Hx].
  - unfold Rdiv. rewrite sin_0. lra.
  - pose proof (sin_abs_le x) as Hs.
    assert (Hsq : sin x * sin x <= x * x).
    { unfold Rabs in Hs. destruct (Rcase_abs x); nra. }
    assert (Hx2 : 0 < x * x) by nra.
    replace (sin x / x * (sin x / x)) with (sin x * sin x / (x * x))
      by (field; done).
    apply (Rmult_le_reg_r (x * x)); [done|].
    replace (sin x * sin x / (x * x) * (x * x)) with (sin x * sin x)
      by (field; done).
    lra.
Qed.

Lemma weight_bounds bandwidth fc f : 0 <= Spec.weight bandwidth fc f <= 1.
Proof.
  unfold Spec.weight. destruct (decide _); [lra|].
  set (x := bandwidth * log10 (f / fc)).
  pose proof (sinc_sq_le_1 x) as Hq.
  replace ((sin x / x) ^ 4) with ((sin x / x * (sin x / x)) *
                                  (sin x / x * (sin x / x))) by ring.
  nra.
Qed.

(** Outside the exact-match branch the divisor of [sin x / x] is not zero:
    the division of the program is the division of [R]. *)
Lemma window_divisor_nonzero bandwidth fc f :
  0 < bandwidth -> 0 < fc -> 0 < f -> ~ Rabs (f - fc) < 1e-6 ->
  bandwidth * log10 (f / fc) <> 0.
Proof.
  intros Hb Hfc Hf Hne. unfold log10.
  assert (Hln10 : 0 < ln 10).
  { rewrite <- ln_1. apply ln_increasing; lra. }
  assert (Hr : f / fc <> 1).
  { intros Heq. apply Hne. replace f with fc.
    - rewrite Rminus_diag, Rabs_R0. lra.
    - assert (f = f / fc * fc) by (field; lra). rewrite Heq in *. lra. }
  assert (Hpos : 0 < f / fc) by (apply Rdiv_lt_0_compat; lra).
  pose proof (ln_neq_0 (f / fc) Hr Hpos) as Hln.
  intros H0. apply Rmult_integral in H0 as [H0|H0]; [lra|].
  apply Hln. unfold Rdiv in H0. apply Rmult_integral in H0 as [H0|H0]; [done|].
  pose proof (Rinv_0_lt_compat _ Hln10). lra.
Qed.

Lemma max_ratio_ge_1 bandwidth : 0 < bandwidth -> 1 <= Spec.max_ratio bandwidth.
Proof.
  intros Hb. unfold Spec.max_ratio, Rpower. rewrite <- exp_0.
  assert (Hln10 : 0 < ln 10).
  { rewrite <- ln_1. apply ln_increasing; lra. }
  assert (H3 : 0 < 3 / bandwidth) by (apply Rdiv_lt_0_compat; lra).
  left. apply exp_increasing. nra.
Qed.

Lemma min_ratio_le_1 bandwidth : 0 < bandwidth -> Spec.min_ratio bandwidth <= 1.
Proof.
  intros Hb. pose proof (max_ratio_ge_1 bandwidth Hb) as Hm.
  unfold Spec.min_ratio. apply (Rmult_le_reg_r (Spec.max_ratio bandwidth)); [lra|].
  replace (1 / Spec.max_ratio bandwidth * Spec.max_ratio bandwidth) with 1
    by (field; lra).
  lra.
Qed.

(** A target frequency that is itself an input frequency is in its own
    window. *)
Lemma in_window_self bandwidth fc :
  0 < bandwidth -> 1e-6 <= fc -> Spec.in_window bandwidth fc fc.
Proof.
  intros Hb Hfc. pose proof (max_ratio_ge_1 bandwidth Hb).
  pose proof (min_ratio_le_1 bandwidth Hb).
  unfold Spec.in_window. replace (fc / fc) with 1 by (field; lra). lra.
Qed.

Lemma weight_self bandwidth fc : Spec.weight bandwidth fc fc = 1.
Proof.
  unfold Spec.weight. rewrite decide_True; [done|].
  rewrite Rminus_diag, Rabs_R0. lra.
Qed.

Lemma window_total_nonneg bandwidth fc ps :
  0 <= Spec.window_total_of bandwidth fc ps.
Proof.
  induction ps as [|p ps IH]; [unfold Spec.window_total_of; simpl; lra|].
  rewrite window_total_of_cons. pose proof (weight_bounds bandwidth fc p.1). lra.
Qed.

Lemma window_total_ge_weight bandwidth fc ps p :
  p ∈ ps -> Spec.weight bandwidth fc p.1 <= Spec.window_total_of bandwidth fc ps.
Proof.
  induction 1 as [p ps|p q ps Hin IH]; rewrite window_total_of_cons.
  - pose proof (window_total_nonneg bandwidth fc ps). lra.
  - pose proof (weight_bounds bandwidth fc q.1). lra.
Qed.

(** The sums of a weighted average lie between the bounds of the values. *)
Lemma total_between bandwidth fc ps lo hi :
  (forall p, p ∈ ps -> lo <= p.2 <= hi) ->
  lo * Spec.window_total_of bandwidth fc ps <= Spec.total_of bandwidth fc ps
  <= hi * Spec.window_total_of bandwidth fc ps.
Proof.
  induction ps as [|p ps IH]; intros Hb.
  - unfold Spec.total_of, Spec.window_total_of. simpl. lra.
  - rewrite total_of_cons, window_total_of_cons.
    pose proof (weight_bounds bandwidth fc p.1) as Hw.
    pose proof (Hb p ltac:(left)) as Hp.
    destruct IH as [IH1 IH2]; [intros q Hq; apply Hb; by right|].
    nra.
Qed.

Lemma average_between t wt lo hi :
  0 < wt -> lo * wt <= t <= hi * wt -> lo <= t / wt <= hi.
Proof.
  intros Hwt [H1 H2]. split.
  - apply (Rmult_le_reg_r wt); [done|].
    replace (t / wt * wt) with t by (field; lra). done.
  - apply (Rmult_le_reg_r wt); [done|].
    replace (t / wt * wt) with t by (field; lra). done.
Qed.

Lemma total_flat bandwidth fc ps :
  (forall p, p ∈ ps -> p.2 = 1) ->
  Spec.total_of bandwidth fc ps = Spec.window_total_of bandwidth fc ps.
Proof.
  induction ps as [|p ps IH]; intros Hone; [done|].
  rewrite total_of_cons, window_total_of_cons.
  rewrite IH by (intros q Hq; apply Hone; by right).
  rewrite (Hone p) by left. ring.
Qed.

Lemma contributing_elem bandwidth fc freqs spec np f s :
  (f, s) ∈ Spec.contributing bandwidth fc freqs spec np ->
  Spec.in_window bandwidth fc f /\
  exists j, (j < np)%nat /\ spec !! j = Some s.
Proof.
  intros Hin. apply list_elem_of_filter in Hin as [Hw Hin]. split; [done|].
  apply elem_of_zip_r in Hin. apply elem_of_take in Hin as (j & Hj & Hlt).
  eauto.
Qed.
End Weights.

Lemma contributing_match bandwidth fc freqs spec np j s :
  (0 < bandwidth)%R -> (1e-6 <= fc)%R ->
  (j < np)%nat -> freqs !! j = Some fc -> spec !! j = Some s ->
  (1 <= Spec.window_total_of bandwidth fc
          (Spec.contributing bandwidth fc freqs spec np))%R.
Proof.
  intros Hb Hfc Hj Hf Hs.
  rewrite <- (weight_self bandwidth fc).
  apply (window_total_ge_weight bandwidth fc _ (fc, s)).
  apply list_elem_of_filter. split; [by apply in_window_self|].
  apply (list_elem_of_lookup_2 _ j). rewrite lookup_zip_with.
  rewrite !lookup_take_lt by done. by rewrite Hf, Hs.
Qed.

(** C9.  The smoother on a spectrum whose [np] values are all 1: every
    cell of the output whose target has a positive [window_total] holds
    exactly 1. *)
Theorem flat_spectrum_smooths_to_one
    (spec freqs : list R) (np : Z) (ko_freqs : list R)
    (ko_smooth : list sample) (nko : Z) (bandwidth : R) :
  (forall j : nat, (j < Z.to_nat np)%nat -> spec !! j = Some 1%R) ->
  (Z.to_nat np <= length freqs)%nat ->
  (Z.to_nat nko <= length ko_freqs)%nat ->
  (Z.to_nat nko <= length ko_smooth)%nat ->
  exists out,
    konno_ohmachi_c spec freqs np ko_freqs ko_smooth nko bandwidth = Some out /\
    forall (i : nat) (fc : R),
      (Z.of_nat i < nko)%Z -> ko_freqs !! i = Some fc -> (1e-6 <= fc)%R ->
      exists total window_total,
        window_sums spec freqs np bandwidth (pow 10 (3 / bandwidth))
          (1 / pow 10 (3 / bandwidth)) fc = Some (total, window_total) /\
        ((window_total > 0)%R -> out !! i = Some (Num 1)).
Proof.
  intros Hflat Hlf Hlk Hlo.
  assert (Hls : (Z.to_nat np <= length spec)%nat).
  { destruct (Z.to_nat np) as [|n] eqn:Hn; [lia|].
    assert (n < length spec)%nat; [|lia].
    apply lookup_lt_is_Some. rewrite Hflat by lia. eauto. }
  destruct (konno_run spec freqs np ko_freqs ko_smooth nko bandwidth)
    as (out & Hrun & Hout); try done.
  exists out. split; [done|]. intros i fc Hi Hfc Hge.
  destruct (konno_cell _ _ _ _ _ _ _ _ _ _ Hout Hi Hfc) as (v & Hv & Hcell).
  pose proof (window_sums_spec spec freqs bandwidth fc np Hlf Hls) as Hsums.
  unfold smoothed in Hv. rewrite Rltb_false in Hv by lra.
  rewrite Hsums in Hv. simpl in Hv.
  eexists _, _. split; [exact Hsums|]. intros Hwt.
  rewrite Rgtb_true in Hv by done. simplify_eq. rewrite Hcell.
  rewrite total_flat.
  - do 2 f_equal. field. lra.
  - intros [f s] Hin. apply contributing_elem in Hin as (_ & j & Hj & Hs).
    rewrite Hflat in Hs by done. by simplify_eq.
Qed.

(** C10, amended.  The smoother in exact arithmetic, with a positive
    bandwidth, at a target index [i] with [fc = ko_freqs[i] >= 1e-6]: a
    pass of the inner loop leaves the two sums as they are for a pair
    outside of the window and, for a pair in the window, adds [w * spec[j]]
    to [total] and [w] to [window_total] for a weight [0 <= w <= 1]; and
    when [window_total] is positive the value stored in [ko_smooth[i]] lies
    between the least and the greatest of the [spec[j]] whose pair was
    added to the sums.  (In binary64 the stored quotient is rounded and
    can miss that interval by an ulp.) *)
Theorem smoothed_value_between_min_and_max
    (spec freqs : list R) (np : Z) (ko_freqs : list R)
    (ko_smooth : list sample) (nko : Z) (bandwidth : R) (i : nat) (fc : R) :
  (0 < bandwidth)%R -> ko_freqs !! i = Some fc -> (1e-6 <= fc)%R ->
  (Z.of_nat i < nko)%Z ->
  (Z.to_nat np <= length freqs)%nat -> (Z.to_nat np <= length spec)%nat ->
  (Z.to_nat nko <= length ko_freqs)%nat ->
  (Z.to_nat nko <= length ko_smooth)%nat ->
  let ps := Spec.contributing bandwidth fc freqs spec (Z.to_nat np) in
  let max_ratio := pow 10 (3 / bandwidth) in
  let min_ratio := (1 / max_ratio)%R in
  (forall (j : nat) (f s t wt : R),
     freqs !! j = Some f -> spec !! j = Some s ->
     (~ Spec.in_window bandwidth fc f /\
      inner_body spec freqs bandwidth max_ratio min_ratio fc j (t, wt)
      = Some (t, wt)) \/
     (Spec.in_window bandwidth fc f /\
      exists w : R, (0 <= w <= 1)%R /\
        inner_body spec freqs bandwidth max_ratio min_ratio fc j (t, wt)
        = Some ((t + w * s)%R, (wt + w)%R))) /\
  exists out total window_total,
    konno_ohmachi_c spec freqs np ko_freqs ko_smooth nko bandwidth = Some out /\
    window_sums spec freqs np bandwidth (pow 10 (3 / bandwidth))
      (1 / pow 10 (3 / bandwidth)) fc = Some (total, window_total) /\
    ((window_total > 0)%R ->
     exists v, out !! i = Some (Num v) /\
               (MinRlist (map snd ps) <= v <= MaxRlist (map snd ps))%R).
Proof.
  intros Hb Hfc Hge Hi Hlf Hls Hlk Hlo ps max_ratio min_ratio.
  split.
  { intros j f s t wt Hf Hs. subst max_ratio min_ratio.
    rewrite (inner_body_eq spec freqs bandwidth fc j t wt f s Hf Hs).
    destruct (decide (Spec.in_window bandwidth fc f)) as [Hin|Hout].
    - right. split; [done|]. exists (Spec.weight bandwidth fc f).
      split; [apply weight_bounds|done].
    - left. by split. }
  destruct (konno_run spec freqs np ko_freqs ko_smooth nko bandwidth)
    as (out & Hrun & Hout); try done.
  destruct (konno_cell _ _ _ _ _ _ _ _ _ _ Hout Hi Hfc) as (v & Hv & Hcell).
  pose proof (window_sums_spec spec freqs bandwidth fc np Hlf Hls) as Hsums.
  unfold smoothed in Hv. rewrite Rltb_false in Hv by lra.
  rewrite Hsums in Hv. simpl in Hv. fold ps in Hv, Hsums.
  eexists out, _, _. split; [done|]. split; [exact Hsums|]. intros Hwt.
  rewrite Rgtb_true in Hv by done. simplify_eq.
  eexists. split; [exact Hcell|].
  apply average_between; [lra|].
  apply total_between. intros p Hp. split.
  - apply MinRlist_P1. apply list_elem_of_In, list_elem_of_fmap. eauto.
  - apply MaxRlist_P1. apply list_elem_of_In, list_elem_of_fmap. eauto.
Qed.

(** ** The smoothed value in binary64 *)

Section SmoothingBinary64.
Import Floats.
Local Open Scope float_scope.

(** C10, as the specification words it, fails on the binary64 program.
    Three input pairs at 3 Hz, the target 3 Hz, bandwidth 20, with any
    [pow] for which the ratio 1 lies within the window
    ([min_ratio <= 1 <= max_ratio], with [max_ratio = pow(10, 3/20)]):
    every pair takes the exact-match branch with weight 1.  For the values
    0.1, 0.1, 0.1 the sums are 0.30000000000000004 and 3 and the cell holds
    0.10000000000000002, above the greatest contributing value; for 0.7,
    0.7, 0.7 they are 2.0999999999999996 and 3 and the cell holds
    0.69999999999999984, below the least. *)
#[warnings="-inexact-float"]
Lemma smoothed_value_leaves_range_in_binary64 :
  (forall (pow : float -> float -> float) (log10 sin : float -> float),
     (pow 10 (3 / 20) <? 1) = false ->
     (1 <? 1 / pow 10 (3 / 20)) = false ->
     (F64.window_sums log10 sin [0.1; 0.1; 0.1] [3; 3; 3] 3 20
        (pow 10 (3 / 20)) (1 / pow 10 (3 / 20)) 3
      = Some (0.30000000000000004, 3) /\
      F64.konno_ohmachi_c pow log10 sin [0.1; 0.1; 0.1] [3; 3; 3] 3 [3] [nan]
        1 20 = Some [0.10000000000000002]) /\
     (F64.window_sums log10 sin [0.7; 0.7; 0.7] [3; 3; 3] 3 20
        (pow 10 (3 / 20)) (1 / pow 10 (3 / 20)) 3
      = Some (2.0999999999999996, 3) /\
      F64.konno_ohmachi_c pow log10 sin [0.7; 0.7; 0.7] [3; 3; 3] 3 [3] [nan]
        1 20 = Some [0.69999999999999984])) /\
  (0.1 <? 0.10000000000000002) = true /\
  (0.69999999999999984 <? 0.7) = true.
Proof.
  split; [|split; reflexivity].
  intros pow log10 sin Hmax Hmin. unfold F64.konno_ohmachi_c.
  set (m := pow 10 (3 / 20)) in *. clearbody m.
  repeat split; vm_compute; rewrite Hmax, Hmin; reflexivity.
Qed.
End SmoothingBinary64.

(** ** The theorems at concrete inputs *)

Section Instances.
Local Open Scope R_scope.

(** Four samples at 100 Hz, a one-second oscillator with 5% damping. *)
Lemma current_outputs_follow_recurrence_witness :
  exists out,
    Current.calculate_spectrals_c [0; 1; 1; 0] 4 0.01 1 0.05
      (Resp [0; 0; 0; 0] [0; 0; 0; 0] [0; 0; 0; 0]) = Some out /\
    exists sv sd,
      svel out !! 0%nat = Some sv /\ sdis out !! 0%nat = Some sd /\
      sacc out !! 0%nat = Some (Spec.sacc_of 1 0.05 sv sd).
Proof.
  destruct (current_outputs_follow_recurrence [0; 1; 1; 0] 4 0.01 1 0.05
              (Resp [0; 0; 0; 0] [0; 0; 0; 0] [0; 0; 0; 0]))
    as (out & Hrun & Hk);
    [lia|lra|lra|lra|cbn; lia|cbn; lia|cbn; lia|cbn; lia|].
  destruct (Hk 0%nat ltac:(lia))
    as (g & a1 & sv & sd & _ & _ & Hd & Hv & _ & _ & Ha).
  exists out. split; [exact Hrun|]. exists sv, sd. auto.
Defined.

Lemma zero_input_zero_response_witness :
  (exists out,
     Current.calculate_spectrals_c [0; 0; 0; 0] 4 0.01 1 0.05
       (Resp [7; 7; 7; 7] [7; 7; 7; 7] [7; 7; 7; 7]) = Some out /\
     zero_below 3 out) /\
  (exists out,
     Legacy.calculate_spectrals_c [0; 0.01; 0.02; 0.03] [0; 0; 0; 0] 4 1 0.05
       (Resp [7; 7; 7; 7] [7; 7; 7; 7] [7; 7; 7; 7]) = Some out /\
     zero_below 3 out).
Proof.
  apply (zero_input_zero_response [0; 0.01; 0.02; 0.03] [0; 0; 0; 0] 4 0.01 1
           0.05 0 0.01 (Resp [7; 7; 7; 7] [7; 7; 7; 7] [7; 7; 7; 7]));
    [lia|lra|lra|lra|reflexivity|reflexivity|lra|cbn; lia|cbn; lia|cbn; lia|].
  intros k Hk. change (Z.to_nat 4) with 4%nat in Hk.
  do 4 (destruct k as [|k]; [reflexivity|]). lia.
Defined.

Lemma last_index_never_written_witness :
  (exists out out',
     Current.calculate_spectrals_c [0; 1; 1; 0] 4 0.01 1 0.05
       (Resp [7; 7; 7; 7] [7; 7; 7; 7] [7; 7; 7; 7]) = Some out /\
     Current.calculate_spectrals_c [0; 1; 1; 0] 4 0.01 1 0.05
       (Resp [8; 8; 8; 8] [8; 8; 8; 8] [8; 8; 8; 8]) = Some out' /\
     untouched_from 3 (Resp [7; 7; 7; 7] [7; 7; 7; 7] [7; 7; 7; 7]) out /\
     agree_below 3 out out') /\
  (exists out out',
     Legacy.calculate_spectrals_c [0; 0.01; 0.02; 0.03] [0; 1; 1; 0] 4 1 0.05
       (Resp [7; 7; 7; 7] [7; 7; 7; 7] [7; 7; 7; 7]) = Some out /\
     Legacy.calculate_spectrals_c [0; 0.01; 0.02; 0.03] [0; 1; 1; 0] 4 1 0.05
       (Resp [8; 8; 8; 8] [8; 8; 8; 8] [8; 8; 8; 8]) = Some out' /\
     untouched_from 3 (Resp [7; 7; 7; 7] [7; 7; 7; 7] [7; 7; 7; 7]) out /\
     agree_below 3 out out').
Proof.
  apply (last_index_never_written [0; 0.01; 0.02; 0.03] [0; 1; 1; 0] 4 0.01 1
           0.05 0 0.01 (Resp [7; 7; 7; 7] [7; 7; 7; 7] [7; 7; 7; 7])
           (Resp [8; 8; 8; 8] [8; 8; 8; 8] [8; 8; 8; 8]));
    [lia|reflexivity|reflexivity|cbn; lia..].
Defined.

(** 200 Hz samples and a ten-second oscillator: one sub-step. *)
Lemma legacy_substeps_truncate_witness :
  10 * (0.005 - 0) / 10 - 0.01 < 2147483648 /\
  Legacy.substeps (0.005 - 0) 10 = 1 /\
  exists out,
    Legacy.calculate_spectrals_c [0; 0.005; 0.01; 0.015] [0; 1; 1; 0] 4 10 0.05
      (Resp [0; 0; 0; 0] [0; 0; 0; 0] [0; 0; 0; 0]) = Some out.
Proof.
  split; [lra|].
  destruct (legacy_substeps_truncate [0; 0.005; 0.01; 0.015] [0; 1; 1; 0] 4 10
              0.05 0 0.005 (Resp [0; 0; 0; 0] [0; 0; 0; 0] [0; 0; 0; 0]))
    as (_ & _ & Hone & _ & out & Hrun & _);
    [reflexivity|reflexivity|lra|lra|lra|lia|cbn; lia..|].
  split; [apply Hone; lra|]. exists out. exact Hrun.
Defined.

Lemma legacy_one_substep_is_current_witness :
  Legacy.calculate_spectrals_c [0; 0.01; 0.02; 0.03] [0; 1; 1; 0] 4 1 0.05
    (Resp [0; 0; 0; 0] [0; 0; 0; 0] [0; 0; 0; 0]) =
  Current.calculate_spectrals_c [0; 1; 1; 0] 4 (0.01 - 0) 1 0.05
    (Resp [0; 0; 0; 0] [0; 0; 0; 0] [0; 0; 0; 0]).
Proof.
  apply (legacy_one_substep_is_current [0; 0.01; 0.02; 0.03] [0; 1; 1; 0] 4 1
           0.05 0 0.01 (Resp [0; 0; 0; 0] [0; 0; 0; 0] [0; 0; 0; 0]));
    [reflexivity|reflexivity|].
  apply substeps_one. lra.
Defined.
Lemma max_ratio_lt_10 bandwidth : 3 < bandwidth -> Spec.max_ratio bandwidth < 10.
Proof.
  intros Hb. unfold Spec.max_ratio.
  rewrite <- (Rpower_1 10) at 2 by lra. apply Rpower_lt; [lra|].
  apply (Rmult_lt_reg_r bandwidth); [lra|].
  replace (3 / bandwidth * bandwidth) with 3 by (field; lra). lra.
Qed.

(** The scenario of the specification: a flat spectrum on 1..5 Hz, the
    target 3 Hz, bandwidth 20. *)
Lemma window_sums_range_over_window_witness :
  exists out,
    konno_ohmachi_c [1; 1; 1; 1; 1] [1; 2; 3; 4; 5] 5 [3] [NAN] 1 20
    = Some out /\
    exists total window_total,
      window_sums [1; 1; 1; 1; 1] [1; 2; 3; 4; 5] 5 20 (Spec.max_ratio 20)
        (Spec.min_ratio 20) 3 = Some (total, window_total) /\
      out !! 0%nat = Some (if decide (window_total > 0)
                           then Num (total / window_total) else NAN).
Proof.
  destruct (window_sums_range_over_window [1; 1; 1; 1; 1] [1; 2; 3; 4; 5] 5
              [3] [NAN] 1 20 0 3)
    as (Hsums & out & Hrun & Hcell);
    [lra|reflexivity|lra|lia|cbn; lia..|].
  exists out. split; [exact Hrun|]. eexists _, _. split; [exact Hsums|].
  exact Hcell.
Defined.

(** A target of 100 Hz sees none of the input frequencies 1..5 Hz. *)
Lemma window_total_decides_nan_witness :
  exists out,
    konno_ohmachi_c [1; 1; 1; 1; 1] [1; 2; 3; 4; 5] 5 [100] [Num 0] 1 20
    = Some out /\
    out !! 0%nat = Some NAN.
Proof.
  destruct (window_total_decides_nan [1; 1; 1; 1; 1] [1; 2; 3; 4; 5] 5
              [100] [Num 0] 1 20 0 100)
    as (out & total & window_total & Hrun & _ & _ & _ & Hempty);
    [reflexivity|lra|lia|cbn; lia..|].
  exists out. split; [exact Hrun|]. apply Hempty.
  intros j f Hj Hf. right. left.
  pose proof (max_ratio_lt_10 20 ltac:(lra)) as Hmax.
  pose proof (max_ratio_pos 20) as Hpos.
  assert (Hmin : / 10 < Spec.min_ratio 20).
  { unfold Spec.min_ratio, Rdiv. rewrite Rmult_1_l.
    apply Rinv_lt_contravar; [nra|lra]. }
  change (Z.to_nat 5) with 5%nat in Hj.
  do 5 (destruct j as [|j]; [simpl in Hf; simplify_eq; lra|]). lia.
Defined.

Lemma tiny_target_gives_nan_witness :
  exists out,
    konno_ohmachi_c [1; 1; 1; 1; 1] [1; 2; 3; 4; 5] 5 [0] [Num 0] 1 20
    = Some out /\
    out !! 0%nat = Some NAN.
Proof.
  apply (tiny_target_gives_nan [1; 1; 1; 1; 1] [1; 2; 3; 4; 5] 5
           [0] [Num 0] 1 20 0 0);
    [reflexivity|lra|lia|cbn; lia..].
Defined.

Lemma flat_spectrum_smooths_to_one_witness :
  exists out,
    konno_ohmachi_c [1; 1; 1; 1; 1] [1; 2; 3; 4; 5] 5 [3] [NAN] 1 20
    = Some out /\
    out !! 0%nat = Some (Num 1).
Proof.
  destruct (flat_spectrum_smooths_to_one [1; 1; 1; 1; 1] [1; 2; 3; 4; 5] 5
              [3] [NAN] 1 20)
    as (out & Hrun & Hcells);
    [|cbn; lia..|].
  { intros j Hj. change (Z.to_nat 5) with 5%nat in Hj.
    do 5 (destruct j as [|j]; [reflexivity|]). lia. }
  exists out. split; [exact Hrun|].
  destruct (Hcells 0%nat 3 ltac:(lia) eq_refl ltac:(lra))
    as (total & window_total & Hsums & Hone).
  apply Hone.
  rewrite window_sums_spec in Hsums by (cbn; lia). simplify_eq.
  pose proof (contributing_match 20 3 [1; 2; 3; 4; 5] [1; 1; 1; 1; 1] 5 2 1
                ltac:(lra) ltac:(lra) ltac:(lia) eq_refl eq_refl).
  change (Z.to_nat 5) with 5%nat. lra.
Defined.

Lemma smoothed_value_between_min_and_max_witness :
  exists out v,
    konno_ohmachi_c [2; 4; 6; 8; 10] [1; 2; 3; 4; 5] 5 [3] [NAN] 1 20
    = Some out /\
    out !! 0%nat = Some (Num v) /\
    MinRlist (map snd (Spec.contributing 20 3 [1; 2; 3; 4; 5]
                         [2; 4; 6; 8; 10] 5)) <= v
    <= MaxRlist (map snd (Spec.contributing 20 3 [1; 2; 3; 4; 5]
                            [2; 4; 6; 8; 10] 5)).
Proof.
  destruct (smoothed_value_between_min_and_max [2; 4; 6; 8; 10]
              [1; 2; 3; 4; 5] 5 [3] [NAN] 1 20 0 3)
    as (_ & out & total & window_total & Hrun & Hsums & Hbetween);
    [lra|reflexivity|lra|lia|cbn; lia..|].
  destruct Hbetween as (v & Hcell & Hv).
  { rewrite window_sums_spec in Hsums by (cbn; lia). simplify_eq.
    pose proof (contributing_match 20 3 [1; 2; 3; 4; 5] [2; 4; 6; 8; 10] 5 2 6
                  ltac:(lra) ltac:(lra) ltac:(lia) eq_refl eq_refl).
    change (Z.to_nat 5) with 5%nat. lra. }
  exists out, v. split; [exact Hrun|]. split; [exact Hcell|]. exact Hv.
Defined.
End Instances.

(** * Further properties of the integrator *)

(** ** When the call is defined *)

Lemma store_inv {A : Type} (a a' : list A) (k : nat) (v : A) :
  store a k v = Some a' -> (k < length a)%nat /\ a' = <[k := v]> a.
Proof.
  unfold store. destruct (decide (k < length a)%nat); intros H; simplify_eq.
  done.
Qed.

(** A loop over a non-empty range that returns has run its last pass, on a
    state that every earlier pass has kept within the invariant. *)
Lemma for_loop_last_Some {St : Type} (I : St -> Prop)
    (body : nat -> St -> option St) (m : nat) : forall (k : nat) (st out : St),
  for_loop body (seq k (S m)) st = Some out -> I st ->
  (forall j s s', I s -> body j s = Some s' -> I s') ->
  exists s s', I s /\ body (k + m)%nat s = Some s'.
Proof.
  induction m as [|m IH]; intros k st out Hrun Hst Hkeep.
  - simpl in Hrun. destruct (body k st) as [s'|] eqn:Hb; [|done].
    exists st, s'. by rewrite Nat.add_0_r.
  - change (seq k (S (S m))) with (k :: seq (S k) (S m)) in Hrun.
    simpl in Hrun. destruct (body k st) as [s1|] eqn:Hb; [|done].
    simpl in Hrun.
    destruct (IH (S k) s1 out Hrun (Hkeep _ _ _ Hst Hb) Hkeep)
      as (s & s' & Hs & Hs').
    exists s, s'. split; [done|].
    by replace (k + S m)%nat with (S k + m)%nat by lia.
Qed.

(** Reads the bounds off a pass that returned: the two samples read, the
    three cells stored, the sizes kept. *)
Ltac invert_pass H :=
  repeat match type of H with
  | context [?l !! ?i] =>
      lazymatch l with
      | <[_ := _]> _ => fail
      | _ => let E := fresh "Hread" in
             destruct (l !! i) eqn:E; simpl in H; [|discriminate H]
      end
  end;
  repeat match type of H with
  | context [store ?l ?i ?v] =>
      let E := fresh "Hstore" in
      destruct (store l i v) eqn:E; simpl in H; [|discriminate H];
      apply store_inv in E as [? ->];
      rewrite ?list_lookup_insert_eq in H by done; simpl in H
  end;
  injection H as <-; simpl; rewrite ?length_insert.

Lemma current_first_sample_inv c acc st st' :
  Current.first_sample c acc st = Some st' ->
  (2 <= length acc)%nat /\ room 1 st /\
  length (sacc st') = length (sacc st) /\
  length (svel st') = length (svel st) /\
  length (sdis st') = length (sdis st).
Proof.
  intros H. destruct c. unfold Current.first_sample in H. invert_pass H.
  apply lookup_lt_Some in Hread0. unfold room. repeat split; lia.
Qed.

Lemma current_loop_body_inv c acc k st st' :
  Current.loop_body c acc k st = Some st' ->
  (S k < length acc)%nat /\ room (S k) st /\
  length (sacc st') = length (sacc st) /\
  length (svel st') = length (svel st) /\
  length (sdis st') = length (sdis st).
Proof.
  intros H. destruct c. unfold Current.loop_body in H. invert_pass H.
  apply lookup_lt_Some in Hread0. unfold room. repeat split; lia.
Qed.

Lemma legacy_first_sample_inv c ns acc st st' :
  Legacy.first_sample c ns acc st = Some st' ->
  (2 <= length acc)%nat /\ room 1 st /\
  length (sacc st') = length (sacc st) /\
  length (svel st') = length (svel st) /\
  length (sdis st') = length (sdis st).
Proof.
  intros H. destruct c. unfold Legacy.first_sample in H. invert_pass H.
  apply lookup_lt_Some in Hread0. unfold room. repeat split; lia.
Qed.

Lemma legacy_loop_body_inv c ns acc k st st' :
  Legacy.loop_body c ns acc k st = Some st' ->
  (S k < length acc)%nat /\ room (S k) st /\
  length (sacc st') = length (sacc st) /\
  length (svel st') = length (svel st) /\
  length (sdis st') = length (sdis st).
Proof.
  intros H. destruct c. unfold Legacy.loop_body in H. invert_pass H.
  apply lookup_lt_Some in Hread0. unfold room. repeat split; lia.
Qed.

(** The run lemmas again, for every [np] and with the least sizes: two
    samples and one cell are used even when [np < 2]. *)
Lemma current_run_any acc np dt period damping st :
  (2 <= length acc)%nat -> (Z.to_nat np <= length acc)%nat ->
  room 1 st -> room (Z.to_nat np - 1) st ->
  exists out,
    Current.calculate_spectrals_c acc np dt period damping st = Some out /\
    filled (kernel (Current.setup dt period damping) 1) acc st out
           (S (Z.to_nat (np - 2))).
Proof.
  intros Hacc2 Hacc (Ha1 & Hv1 & Hd1) (Ha & Hv & Hd).
  set (c := Current.setup dt period damping).
  unfold Current.calculate_spectrals_c. fold c.
  rewrite (current_first_sample_eq c acc st (sample_at acc 0) (sample_at acc 1));
    [|apply sample_at_lookup; lia|apply sample_at_lookup; lia|lia..].
  simpl.
  destruct (loop_filled (kernel c 1) acc (Current.loop_body c acc)
              (current_loop_body_eq c acc) st (Z.to_nat (np - 2)) 1
              (write st 0 (kernel c 1 0 0 (sample_at acc 0) (sample_at acc 1))))
    as (out & Hrun & Hout); try lia.
  - apply (filled_write (kernel c 1) acc st st 0); [apply filled_start|lia..].
  - by exists out.
Qed.

Lemma legacy_run_any times acc np period damping st t0 t1 :
  times !! 0%nat = Some t0 -> times !! 1%nat = Some t1 ->
  (2 <= length acc)%nat -> (Z.to_nat np <= length acc)%nat ->
  room 1 st -> room (Z.to_nat np - 1) st ->
  let ns := Legacy.substeps (t1 - t0) period in
  exists out,
    Legacy.calculate_spectrals_c times acc np period damping st = Some out /\
    filled (kernel (Legacy.setup (t1 - t0) ns period damping) ns) acc st out
           (S (Z.to_nat (np - 2))).
Proof.
  intros Ht0 Ht1 Hacc2 Hacc (Ha1 & Hv1 & Hd1) (Ha & Hv & Hd) ns.
  set (c := Legacy.setup (t1 - t0) ns period damping).
  unfold Legacy.calculate_spectrals_c. rewrite Ht0, Ht1.
  cbn -[Legacy.first_sample Legacy.loop_body Legacy.setup Legacy.substeps for_loop].
  fold ns. fold c.
  rewrite (legacy_first_sample_eq c ns acc st (sample_at acc 0) (sample_at acc 1));
    [|apply sample_at_lookup; lia|apply sample_at_lookup; lia|lia..].
  simpl.
  destruct (loop_filled (kernel c ns) acc (Legacy.loop_body c ns acc)
              (legacy_loop_body_eq c ns acc) st (Z.to_nat (np - 2)) 1
              (write st 0 (kernel c ns 0 0 (sample_at acc 0) (sample_at acc 1))))
    as (out & Hrun & Hout); try lia.
  - apply (filled_write (kernel c ns) acc st st 0); [apply filled_start|lia..].
  - by exists out.
Qed.

(** The sizes a returning loop has used. *)
Lemma loop_bounds (body : nat -> resp -> option resp) (acc : list R)
    (st0 st out : resp) (m : nat) :
  (forall k s s', body k s = Some s' ->
     (S k < length acc)%nat /\ room (S k) s /\
     length (sacc s') = length (sacc s) /\
     length (svel s') = length (svel s) /\
     length (sdis s') = length (sdis s)) ->
  length (sacc st) = length (sacc st0) ->
  length (svel st) = length (svel st0) ->
  length (sdis st) = length (sdis st0) ->
  for_loop body (seq 1 m) st = Some out ->
  (m = 0)%nat \/ ((S m < length acc)%nat /\ room (S m) st0).
Proof.
  intros Hinv La Lv Ld Hrun. destruct m as [|m]; [by left|right].
  destruct (for_loop_last_Some
              (fun s => length (sacc s) = length (sacc st0) /\
                        length (svel s) = length (svel st0) /\
                        length (sdis s) = length (sdis st0))
              body m 1 st out Hrun) as (s & s' & (Ia & Iv & Id) & Hlast).
  - done.
  - intros j s s' (Ia & Iv & Id) Hb.
    destruct (Hinv _ _ _ Hb) as (_ & _ & Ea & Ev & Ed). repeat split; congruence.
  - destruct (Hinv _ _ _ Hlast) as (Hacc & (Ra & Rv & Rd) & _).
    unfold room. rewrite <- Ia, <- Iv, <- Id.
    replace (S (S m)) with (S (1 + m)) by lia. done.
Qed.

(** X1.  The current integrator is defined exactly when [acc] has at
    least two samples and at least [np], and each output buffer has at
    least one cell and at least [np - 1]: also for [np < 2] the call reads
    [acc[0]], [acc[1]] and writes cell 0, and cell [np - 1] is not
    needed. *)
Theorem current_defined_iff
    (acc : list R) (np : Z) (dt period damping : R) (st : resp) :
  is_Some (Current.calculate_spectrals_c acc np dt period damping st) <->
  (2 <= length acc)%nat /\ (Z.to_nat np <= length acc)%nat /\
  room 1 st /\ room (Z.to_nat np - 1) st.
Proof.
  split.
  - intros [out Hrun]. unfold Current.calculate_spectrals_c in Hrun.
    destruct (Current.first_sample _ acc st) as [st1|] eqn:Hfirst; [|done].
    simpl in Hrun.
    apply current_first_sample_inv in Hfirst as (Hacc2 & Hroom & La & Lv & Ld).
    destruct (loop_bounds _ acc st st1 out (Z.to_nat (np - 2))
                (current_loop_body_inv _ acc) La Lv Ld Hrun)
      as [Hm|(Hacc & Ra & Rv & Rd)].
    + destruct Hroom as (? & ? & ?). unfold room. repeat split; lia.
    + destruct Hroom as (? & ? & ?). unfold room. repeat split; lia.
  - intros (Hacc2 & Hacc & H1 & Hn).
    destruct (current_run_any acc np dt period damping st Hacc2 Hacc H1 Hn)
      as (out & Hrun & _).
    by exists out.
Qed.

(** X2.  The legacy integrator is defined exactly when [times] has at
    least two entries, [acc] at least two samples and at least [np], and
    each output buffer at least one cell and at least [np - 1]. *)
Theorem legacy_defined_iff
    (times acc : list R) (np : Z) (period damping : R) (st : resp) :
  is_Some (Legacy.calculate_spectrals_c times acc np period damping st) <->
  (2 <= length times)%nat /\
  (2 <= length acc)%nat /\ (Z.to_nat np <= length acc)%nat /\
  room 1 st /\ room (Z.to_nat np - 1) st.
Proof.
  split.
  - intros [out Hrun]. unfold Legacy.calculate_spectrals_c in Hrun.
    destruct (times !! 1%nat) as [t1|] eqn:Ht1; [|done].
    destruct (times !! 0%nat) as [t0|] eqn:Ht0; [|done].
    cbn -[Legacy.first_sample Legacy.loop_body Legacy.setup Legacy.substeps
          for_loop] in Hrun.
    destruct (Legacy.first_sample _ _ acc st) as [st1|] eqn:Hfirst; [|done].
    simpl in Hrun.
    apply legacy_first_sample_inv in Hfirst as (Hacc2 & Hroom & La & Lv & Ld).
    apply lookup_lt_Some in Ht1.
    destruct (loop_bounds _ acc st st1 out (Z.to_nat (np - 2))
                (legacy_loop_body_inv _ _ acc) La Lv Ld Hrun)
      as [Hm|(Hacc & Ra & Rv & Rd)].
    + destruct Hroom as (? & ? & ?). unfold room. repeat split; lia.
    + destruct Hroom as (? & ? & ?). unfold room. repeat split; lia.
  - intros (Htimes & Hacc2 & Hacc & H1 & Hn).
    destruct (lookup_lt_is_Some_2 times 0 ltac:(lia)) as [t0 Ht0].
    destruct (lookup_lt_is_Some_2 times 1 ltac:(lia)) as [t1 Ht1].
    destruct (legacy_run_any times acc np period damping st t0 t1
                Ht0 Ht1 Hacc2 Hacc H1 Hn) as (out & Hrun & _).
    by exists out.
Qed.

(** ** The integrator as a linear, causal, time-invariant filter *)

Section FilterLaws.
Local Open Scope R_scope.
Variables (c : consts) (ns : R).

Lemma step_values_linear a pd1 pv1 g1 x1 pd2 pv2 g2 x2 :
  step_values c (a * pd1 + pd2) (a * pv1 + pv2) (a * g1 + g2) (a * x1 + x2) =
  (a * (step_values c pd1 pv1 g1 x1).1.1 + (step_values c pd2 pv2 g2 x2).1.1,
   a * (step_values c pd1 pv1 g1 x1).1.2 + (step_values c pd2 pv2 g2 x2).1.2,
   a * (step_values c pd1 pv1 g1 x1).2 + (step_values c pd2 pv2 g2 x2).2).
Proof.
  destruct c. unfold step_values. simpl.
  f_equal; [f_equal|]; unfold Rdiv; ring.
Qed.

Lemma kernel_linear a pd1 pv1 g1 x1 pd2 pv2 g2 x2 :
  kernel c ns (a * pd1 + pd2) (a * pv1 + pv2) (a * g1 + g2) (a * x1 + x2) =
  (a * (kernel c ns pd1 pv1 g1 x1).1.1 + (kernel c ns pd2 pv2 g2 x2).1.1,
   a * (kernel c ns pd1 pv1 g1 x1).1.2 + (kernel c ns pd2 pv2 g2 x2).1.2,
   a * (kernel c ns pd1 pv1 g1 x1).2 + (kernel c ns pd2 pv2 g2 x2).2).
Proof.
  unfold kernel. rewrite <- step_values_linear. f_equal.
  unfold Rdiv. ring.
Qed.

Lemma kernel_rest : kernel c ns 0 0 0 0 = (0, 0, 0).
Proof.
  unfold kernel. replace ((0 - 0) / ns) with 0 by (unfold Rdiv; ring).
  by apply step_values_zero.
Qed.

Lemma state_at_linear a acc1 acc2 acc3 n :
  (forall i, (i <= S n)%nat ->
     sample_at acc3 i = a * sample_at acc1 i + sample_at acc2 i) ->
  forall k, (k <= n)%nat ->
    state_at (kernel c ns) acc3 k =
    (a * (state_at (kernel c ns) acc1 k).1.1 + (state_at (kernel c ns) acc2 k).1.1,
     a * (state_at (kernel c ns) acc1 k).1.2 + (state_at (kernel c ns) acc2 k).1.2,
     a * (state_at (kernel c ns) acc1 k).2 + (state_at (kernel c ns) acc2 k).2).
Proof.
  intros Hs. induction k as [|k IH]; intros Hk.
  - simpl. rewrite !Hs by lia. rewrite <- kernel_linear. f_equal; ring.
  - simpl. rewrite IH by lia. rewrite !Hs by lia. simpl.
    by rewrite <- kernel_linear.
Qed.

Lemma state_at_prefix acc acc' n :
  (forall i, (i <= S n)%nat -> sample_at acc i = sample_at acc' i) ->
  forall k, (k <= n)%nat ->
    state_at (kernel c ns) acc k = state_at (kernel c ns) acc' k.
Proof.
  intros Hs. induction k as [|k IH]; intros Hk; simpl.
  - by rewrite !Hs by lia.
  - by rewrite IH, !Hs by lia.
Qed.

Lemma state_at_delay acc :
  sample_at acc 0 = 0 ->
  state_at (kernel c ns) (0 :: acc) 0 = (0, 0, 0) /\
  forall k, state_at (kernel c ns) (0 :: acc) (S k) =
            state_at (kernel c ns) acc k.
Proof.
  intros H0.
  assert (Hfirst : state_at (kernel c ns) (0 :: acc) 0 = (0, 0, 0)).
  { simpl. unfold sample_at at 1 2. simpl. fold (sample_at acc 0).
    rewrite H0. apply kernel_rest. }
  split; [done|]. induction k as [|k IH].
  - change (state_at (kernel c ns) (0 :: acc) 1) with
      (kernel c ns (state_at (kernel c ns) (0 :: acc) 0).2
         (state_at (kernel c ns) (0 :: acc) 0).1.2
         (sample_at (0 :: acc) 1) (sample_at (0 :: acc) 2)).
    rewrite Hfirst. done.
  - change (state_at (kernel c ns) (0 :: acc) (S (S k))) with
      (kernel c ns (state_at (kernel c ns) (0 :: acc) (S k)).2
         (state_at (kernel c ns) (0 :: acc) (S k)).1.2
         (sample_at (0 :: acc) (S (S k))) (sample_at (0 :: acc) (S (S (S k))))).
    rewrite IH. done.
Qed.
End FilterLaws.

Section FilledLaws.
Variable F : R -> R -> R -> R -> R * R * R.

Lemma filled_cells acc st out n k :
  filled F acc st out n -> (k < n)%nat ->
  sacc out !! k = Some (state_at F acc k).1.1 /\
  svel out !! k = Some (state_at F acc k).1.2 /\
  sdis out !! k = Some (state_at F acc k).2.
Proof. intros (_ & _ & _ & Hlo & _) Hk. by apply Hlo. Qed.

End FilledLaws.

Lemma sample_at_agree acc acc' i :
  acc !! i = acc' !! i -> sample_at acc i = sample_at acc' i.
Proof. intros H. unfold sample_at. by rewrite H. Qed.

Section FilledFilter.
Local Open Scope R_scope.
Variables (c : consts) (ns : R).

Lemma filled_combine a acc1 acc2 acc3 st1 st2 st3 out1 out2 out3 n :
  filled (kernel c ns) acc1 st1 out1 n ->
  filled (kernel c ns) acc2 st2 out2 n ->
  filled (kernel c ns) acc3 st3 out3 n ->
  (forall i, (i <= n)%nat ->
     sample_at acc3 i = a * sample_at acc1 i + sample_at acc2 i) ->
  combine_below n a out1 out2 out3.
Proof.
  intros H1 H2 H3 Hs k Hk.
  destruct (filled_cells _ _ _ _ _ k H1 Hk) as (A1 & V1 & D1).
  destruct (filled_cells _ _ _ _ _ k H2 Hk) as (A2 & V2 & D2).
  destruct (filled_cells _ _ _ _ _ k H3 Hk) as (A3 & V3 & D3).
  rewrite (state_at_linear c ns a acc1 acc2 acc3 (n - 1)) in A3, V3, D3;
    [|intros i Hi; apply Hs; lia|lia|intros i Hi; apply Hs; lia|lia
     |intros i Hi; apply Hs; lia|lia].
  eexists _, _, _, _, _, _. repeat split; eassumption.
Qed.

Lemma filled_prefix acc acc' st st' out out' n n' m :
  filled (kernel c ns) acc st out n ->
  filled (kernel c ns) acc' st' out' n' ->
  (m <= n)%nat -> (m <= n')%nat ->
  (forall i, (i <= m)%nat -> sample_at acc i = sample_at acc' i) ->
  agree_below m out out'.
Proof.
  intros H H' Hn Hn' Hs k Hk.
  destruct (filled_cells _ _ _ _ _ k H ltac:(lia)) as (A & V & D).
  destruct (filled_cells _ _ _ _ _ k H' ltac:(lia)) as (A' & V' & D').
  rewrite <- (state_at_prefix c ns acc acc' (m - 1)) in A', V', D';
    [|intros i Hi; apply Hs; lia|lia|intros i Hi; apply Hs; lia|lia
     |intros i Hi; apply Hs; lia|lia].
  eexists _, _, _. repeat split; eassumption.
Qed.

Lemma filled_delay acc st st' out out' n :
  filled (kernel c ns) acc st out n ->
  filled (kernel c ns) (0 :: acc) st' out' (S n) ->
  sample_at acc 0 = 0 ->
  (sacc out' !! 0%nat = Some 0 /\ svel out' !! 0%nat = Some 0 /\
   sdis out' !! 0%nat = Some 0) /\
  delayed_below n out out'.
Proof.
  intros H H' H0. destruct (state_at_delay c ns acc H0) as (Hfirst & Hnext).
  split.
  - destruct (filled_cells _ _ _ _ _ 0%nat H' ltac:(lia)) as (A & V & D).
    rewrite Hfirst in A, V, D. done.
  - intros k Hk.
    destruct (filled_cells _ _ _ _ _ k H Hk) as (A & V & D).
    destruct (filled_cells _ _ _ _ _ (S k) H' ltac:(lia)) as (A' & V' & D').
    rewrite Hnext in A', V', D'.
    eexists _, _, _. repeat split; eassumption.
Qed.

Lemma filled_quiet acc st out n m :
  filled (kernel c ns) acc st out n -> (m <= n)%nat ->
  (forall i, (i <= m)%nat -> sample_at acc i = 0) ->
  zero_below m out.
Proof.
  intros H Hm Hs k Hk.
  destruct (filled_cells _ _ _ _ _ k H ltac:(lia)) as (A & V & D).
  rewrite (state_at_zero c ns acc (m - 1)) in A, V, D;
    [done|intros i Hi; apply Hs; lia|lia|intros i Hi; apply Hs; lia|lia
     |intros i Hi; apply Hs; lia|lia].
Qed.
End FilledFilter.

(** X3.  Superposition, for both integrators: when every sample of
    [acc3] is [a] times the sample of [acc1] plus the sample of [acc2],
    every cell 0 to [np-2] of the response to [acc3] is [a] times the
    cell of the response to [acc1] plus the cell of the response to
    [acc2]. *)
Theorem response_superposition
    (times acc1 acc2 acc3 : list R) (np : Z)
    (dt period damping t0 t1 a : R) (st1 st2 st3 : resp) :
  (2 <= np)%Z ->
  times !! 0%nat = Some t0 -> times !! 1%nat = Some t1 ->
  (forall k : nat, (k < Z.to_nat np)%nat ->
     exists x y, acc1 !! k = Some x /\ acc2 !! k = Some y /\
                 acc3 !! k = Some (a * x + y)%R) ->
  room (Z.to_nat np - 1) st1 -> room (Z.to_nat np - 1) st2 ->
  room (Z.to_nat np - 1) st3 ->
  (exists out1 out2 out3,
     Current.calculate_spectrals_c acc1 np dt period damping st1 = Some out1 /\
     Current.calculate_spectrals_c acc2 np dt period damping st2 = Some out2 /\
     Current.calculate_spectrals_c acc3 np dt period damping st3 = Some out3 /\
     combine_below (Z.to_nat np - 1) a out1 out2 out3) /\
  (exists out1 out2 out3,
     Legacy.calculate_spectrals_c times acc1 np period damping st1 = Some out1 /\
     Legacy.calculate_spectrals_c times acc2 np period damping st2 = Some out2 /\
     Legacy.calculate_spectrals_c times acc3 np period damping st3 = Some out3 /\
     combine_below (Z.to_nat np - 1) a out1 out2 out3).
Proof.
  intros Hnp Ht0 Ht1 Hacc R1 R2 R3.
  assert (Hlen : (Z.to_nat np <= length acc1)%nat /\
                 (Z.to_nat np <= length acc2)%nat /\
                 (Z.to_nat np <= length acc3)%nat).
  { destruct (Hacc (Z.to_nat np - 1)%nat ltac:(lia)) as (x & y & H1 & H2 & H3).
    apply lookup_lt_Some in H1, H2, H3. lia. }
  destruct Hlen as (L1 & L2 & L3).
  assert (Hs : forall i, (i <= Z.to_nat np - 1)%nat ->
             sample_at acc3 i = (a * sample_at acc1 i + sample_at acc2 i)%R).
  { intros i Hi. destruct (Hacc i ltac:(lia)) as (x & y & H1 & H2 & H3).
    unfold sample_at. by rewrite H1, H2, H3. }
  assert (Hroom : forall st, room (Z.to_nat np - 1) st -> room 1 st).
  { intros st (? & ? & ?). unfold room. repeat split; lia. }
  replace (Z.to_nat np - 1)%nat with (S (Z.to_nat (np - 2))) in * by lia.
  split.
  - destruct (current_run_any acc1 np dt period damping st1)
      as (out1 & Hr1 & Hf1); [lia|lia|by apply Hroom|
        by replace (Z.to_nat np - 1)%nat with (S (Z.to_nat (np - 2))) by lia|].
    destruct (current_run_any acc2 np dt period damping st2)
      as (out2 & Hr2 & Hf2); [lia|lia|by apply Hroom|
        by replace (Z.to_nat np - 1)%nat with (S (Z.to_nat (np - 2))) by lia|].
    destruct (current_run_any acc3 np dt period damping st3)
      as (out3 & Hr3 & Hf3); [lia|lia|by apply Hroom|
        by replace (Z.to_nat np - 1)%nat with (S (Z.to_nat (np - 2))) by lia|].
    exists out1, out2, out3. do 3 (split; [done|]).
    by eapply filled_combine.
  - destruct (legacy_run_any times acc1 np period damping st1 t0 t1)
      as (out1 & Hr1 & Hf1); [done|done|lia|lia|by apply Hroom|
        by replace (Z.to_nat np - 1)%nat with (S (Z.to_nat (np - 2))) by lia|].
    destruct (legacy_run_any times acc2 np period damping st2 t0 t1)
      as (out2 & Hr2 & Hf2); [done|done|lia|lia|by apply Hroom|
        by replace (Z.to_nat np - 1)%nat with (S (Z.to_nat (np - 2))) by lia|].
    destruct (legacy_run_any times acc3 np period damping st3 t0 t1)
      as (out3 & Hr3 & Hf3); [done|done|lia|lia|by apply Hroom|
        by replace (Z.to_nat np - 1)%nat with (S (Z.to_nat (np - 2))) by lia|].
    exists out1, out2, out3. do 3 (split; [done|]).
    by eapply filled_combine.
Qed.

Lemma current_run_room acc np dt period damping st :
  (2 <= np)%Z -> (Z.to_nat np <= length acc)%nat ->
  room (Z.to_nat np - 1) st ->
  exists out,
    Current.calculate_spectrals_c acc np dt period damping st = Some out /\
    filled (kernel (Current.setup dt period damping) 1) acc st out
           (Z.to_nat np - 1).
Proof.
  intros Hnp Hacc Hroom.
  replace (Z.to_nat np - 1)%nat with (S (Z.to_nat (np - 2))) by lia.
  assert (H1 : room 1 st).
  { destruct Hroom as (? & ? & ?). unfold room. repeat split; lia. }
  apply current_run_any; [lia|done|done|done].
Qed.

Lemma legacy_run_room times acc np period damping st t0 t1 :
  times !! 0%nat = Some t0 -> times !! 1%nat = Some t1 ->
  (2 <= np)%Z -> (Z.to_nat np <= length acc)%nat ->
  room (Z.to_nat np - 1) st ->
  exists out,
    Legacy.calculate_spectrals_c times acc np period damping st = Some out /\
    filled (kernel (Legacy.setup (t1 - t0) (Legacy.substeps (t1 - t0) period)
                      period damping)
              (Legacy.substeps (t1 - t0) period)) acc st out
           (Z.to_nat np - 1).
Proof.
  intros Ht0 Ht1 Hnp Hacc Hroom.
  replace (Z.to_nat np - 1)%nat with (S (Z.to_nat (np - 2))) by lia.
  assert (H1 : room 1 st).
  { destruct Hroom as (? & ? & ?). unfold room. repeat split; lia. }
  apply (legacy_run_any times acc np period damping st t0 t1);
    [done|done|lia|done|done|done].
Qed.

(** X4.  Causality, for both integrators: the cells 0 to [np'-2] of the
    response depend on the first [np'] samples alone.  Two records that
    agree on their first [np'] samples, the one processed with [np >= np']
    samples and the other with [np'], give the same cells 0 to [np'-2]. *)
Theorem response_is_causal
    (times acc acc' : list R) (np np' : Z)
    (dt period damping t0 t1 : R) (st st' : resp) :
  (2 <= np')%Z -> (np' <= np)%Z ->
  times !! 0%nat = Some t0 -> times !! 1%nat = Some t1 ->
  (forall k : nat, (k < Z.to_nat np')%nat -> acc !! k = acc' !! k) ->
  (Z.to_nat np <= length acc)%nat -> (Z.to_nat np' <= length acc')%nat ->
  room (Z.to_nat np - 1) st -> room (Z.to_nat np' - 1) st' ->
  (exists out out',
     Current.calculate_spectrals_c acc np dt period damping st = Some out /\
     Current.calculate_spectrals_c acc' np' dt period damping st' = Some out' /\
     agree_below (Z.to_nat np' - 1) out out') /\
  (exists out out',
     Legacy.calculate_spectrals_c times acc np period damping st = Some out /\
     Legacy.calculate_spectrals_c times acc' np' period damping st' = Some out' /\
     agree_below (Z.to_nat np' - 1) out out').
Proof.
  intros Hnp' Hle Ht0 Ht1 Hagree Hacc Hacc' Hroom Hroom'.
  assert (Hs : forall i, (i <= Z.to_nat np' - 1)%nat ->
             sample_at acc i = sample_at acc' i).
  { intros i Hi. apply sample_at_agree, Hagree. lia. }
  split.
  - destruct (current_run_room acc np dt period damping st)
      as (out & Hr & Hf); [lia|done|done|].
    destruct (current_run_room acc' np' dt period damping st')
      as (out' & Hr' & Hf'); [lia|done|done|].
    exists out, out'. do 2 (split; [done|]).
    eapply filled_prefix; [exact Hf|exact Hf'|lia|lia|done].
  - destruct (legacy_run_room times acc np period damping st t0 t1)
      as (out & Hr & Hf); [done|done|lia|done|done|].
    destruct (legacy_run_room times acc' np' period damping st' t0 t1)
      as (out' & Hr' & Hf'); [done|done|lia|done|done|].
    exists out, out'. do 2 (split; [done|]).
    eapply filled_prefix; [exact Hf|exact Hf'|lia|lia|done].
Qed.

(** X5.  Time invariance, for both integrators, with a positive period,
    a damping ratio in [0, 1) and a positive step (exact arithmetic): for
    a record that starts at zero, one more zero sample in front delays
    the response by one cell: cell 0 is then zero and cell [k+1] holds
    what cell [k] held. *)
Theorem response_is_time_invariant
    (times acc : list R) (np : Z)
    (dt period damping t0 t1 : R) (st st' : resp) :
  (2 <= np)%Z -> (0 < period)%R -> (0 <= damping < 1)%R ->
  (0 < dt)%R ->
  times !! 0%nat = Some t0 -> times !! 1%nat = Some t1 -> (t0 < t1)%R ->
  acc !! 0%nat = Some 0%R ->
  (Z.to_nat np <= length acc)%nat ->
  room (Z.to_nat np - 1) st -> room (Z.to_nat np) st' ->
  (exists out out',
     Current.calculate_spectrals_c acc np dt period damping st = Some out /\
     Current.calculate_spectrals_c (0%R :: acc) (np + 1) dt period damping st'
     = Some out' /\
     (sacc out' !! 0%nat = Some 0%R /\ svel out' !! 0%nat = Some 0%R /\
      sdis out' !! 0%nat = Some 0%R) /\
     delayed_below (Z.to_nat np - 1) out out') /\
  (exists out out',
     Legacy.calculate_spectrals_c times acc np period damping st = Some out /\
     Legacy.calculate_spectrals_c times (0%R :: acc) (np + 1) period damping st'
     = Some out' /\
     (sacc out' !! 0%nat = Some 0%R /\ svel out' !! 0%nat = Some 0%R /\
      sdis out' !! 0%nat = Some 0%R) /\
     delayed_below (Z.to_nat np - 1) out out').
Proof.
  intros Hnp Hp Hd Hdt Ht0 Ht1 Hlt H0 Hacc Hroom Hroom'.
  assert (Hs : sample_at acc 0 = 0%R) by (unfold sample_at; by rewrite H0).
  assert (Hroom1 : room (Z.to_nat (np + 1) - 1) st').
  { by replace (Z.to_nat (np + 1) - 1)%nat with (Z.to_nat np) by lia. }
  assert (Hacc1 : (Z.to_nat (np + 1) <= length (0%R :: acc))%nat).
  { simpl. lia. }
  split.
  - destruct (current_run_room acc np dt period damping st)
      as (out & Hr & Hf); [lia|done|done|].
    destruct (current_run_room (0%R :: acc) (np + 1) dt period damping st')
      as (out' & Hr' & Hf'); [lia|done|done|].
    exists out, out'. do 2 (split; [done|]).
    eapply filled_delay; [exact Hf| |done].
    by replace (S (Z.to_nat np - 1)) with (Z.to_nat (np + 1) - 1)%nat by lia.
  - destruct (legacy_run_room times acc np period damping st t0 t1)
      as (out & Hr & Hf); [done|done|lia|done|done|].
    destruct (legacy_run_room times (0%R :: acc) (np + 1) period damping st'
                t0 t1) as (out' & Hr' & Hf'); [done|done|lia|done|done|].
    exists out, out'. do 2 (split; [done|]).
    eapply filled_delay; [exact Hf| |done].
    by replace (S (Z.to_nat np - 1)) with (Z.to_nat (np + 1) - 1)%nat by lia.
Qed.

(** X6.  No response before the excitation, for both integrators, with a
    positive period, a damping ratio in [0, 1) and a positive step: when
    the samples 0 to [m] are zero, [m <= np-1], the cells 0 to [m-1] of
    the three buffers are zero. *)
Theorem response_is_quiet_before_input
    (times acc : list R) (np : Z) (m : nat)
    (dt period damping t0 t1 : R) (st : resp) :
  (2 <= np)%Z -> (m <= Z.to_nat np - 1)%nat ->
  (0 < period)%R -> (0 <= damping < 1)%R -> (0 < dt)%R ->
  times !! 0%nat = Some t0 -> times !! 1%nat = Some t1 -> (t0 < t1)%R ->
  (forall k : nat, (k <= m)%nat -> acc !! k = Some 0%R) ->
  (Z.to_nat np <= length acc)%nat ->
  room (Z.to_nat np - 1) st ->
  (exists out,
     Current.calculate_spectrals_c acc np dt period damping st = Some out /\
     zero_below m out) /\
  (exists out,
     Legacy.calculate_spectrals_c times acc np period damping st = Some out /\
     zero_below m out).
Proof.
  intros Hnp Hm Hp Hd Hdt Ht0 Ht1 Hlt Hzero Hacc Hroom.
  assert (Hs : forall i, (i <= m)%nat -> sample_at acc i = 0%R).
  { intros i Hi. unfold sample_at. by rewrite Hzero. }
  split.
  - destruct (current_run_room acc np dt period damping st)
      as (out & Hr & Hf); [lia|done|done|].
    exists out. split; [done|]. eapply filled_quiet; [exact Hf|lia|done].
  - destruct (legacy_run_room times acc np period damping st t0 t1)
      as (out & Hr & Hf); [done|done|lia|done|done|].
    exists out. split; [done|]. eapply filled_quiet; [exact Hf|lia|done].
Qed.

(** ** The sub-step count bounds the effective step *)

(** X7.  For a positive period and input step, where the conversion to
    [int] is in range ([10*dt/period - 0.01 < 2^31]; exact arithmetic):
    the sub-step count of the legacy integrator is a whole number, at
    least 1; it is the least positive integer above [10*dt/period - 0.01];
    and the effective step [dt/ns] stays below 0.101 times the period. *)
Theorem substeps_bound_effective_step (dt period : R) :
  (0 < period)%R -> (0 < dt)%R ->
  (10 * dt / period - 0.01 < 2147483648)%R ->
  let ns := Legacy.substeps dt period in
  (exists n : Z, (1 <= n)%Z /\ ns = IZR n) /\
  (forall n : Z, (1 <= n)%Z ->
     ((10 * dt / period - 0.01 < IZR n)%R <-> (ns <= IZR n)%R)) /\
  (dt / ns < 0.101 * period)%R.
Proof.
  intros Hp Hdt Hin ns.
  pose proof (ratio_pos dt period Hp Hdt) as Hr.
  set (x := (10 * dt / period - 0.01)%R) in *.
  assert (Hns : exists n : Z, (1 <= n)%Z /\ ns = IZR n /\
                  (IZR n - 1 <= Rmax x 0)%R /\ (x < IZR n)%R).
  { destruct (Rle_dec 0 x) as [Hx|Hx].
    - exists (Zfloor x + 1)%Z. pose proof (Zfloor_bound x) as [Hlo Hhi].
      assert (0 <= Zfloor x)%Z by (apply Zfloor_lub; simpl; lra).
      rewrite plus_IZR. rewrite Rmax_left by lra.
      repeat split; [lia| |lra|lra].
      unfold ns, Legacy.substeps. fold x. by rewrite int_of_double_nonneg.
    - exists 1%Z. rewrite Rmax_right by lra.
      repeat split; [lia| |lra|lra].
      apply substeps_one. unfold x in *. lra. }
  destruct Hns as (n0 & Hn0 & Heq & Hlow & Hup).
  assert (H1 : (1 <= ns)%R) by (rewrite Heq; by apply IZR_le).
  split; [by exists n0|]. split.
  - intros n Hn. rewrite Heq. split.
    + intros Hlt. apply IZR_le.
      assert (n0 - 1 < n)%Z; [|lia]. apply lt_IZR. rewrite minus_IZR.
      apply IZR_le in Hn.
      unfold Rmax in Hlow. destruct (Rle_dec x 0); lra.
    + intros Hle. lra.
  - apply (Rmult_lt_reg_r ns); [lra|].
    replace (dt / ns * ns)%R with dt by (field; lra).
    assert (Hx : (10 * dt < period * (ns + 0.01))%R).
    { assert (10 * dt / period < ns + 0.01)%R by (rewrite Heq; unfold x in Hup; lra).
      apply (Rmult_lt_reg_r (/ period)); [by apply Rinv_0_lt_compat|].
      replace (period * (ns + 0.01) * / period)%R with (ns + 0.01)%R
        by (field; lra).
      done. }
    nra.
Qed.

(** * Further properties of the smoother *)

Section SmootherCells.
Local Open Scope R_scope.

Lemma pairs_at_zip freqs spec n :
  (n <= length freqs)%nat -> (n <= length spec)%nat ->
  zip (take n freqs) (take n spec) = pairs_at freqs spec (seq 0 n).
Proof.
  intros Hf Hs. apply list_eq. intros i. unfold pairs_at.
  rewrite lookup_zip_with, list_lookup_fmap.
  destruct (decide (i < n)%nat) as [Hi|Hi].
  - rewrite !lookup_take_lt by done. rewrite lookup_seq_lt by done. simpl.
    rewrite (sample_at_lookup freqs i) by lia.
    by rewrite (sample_at_lookup spec i) by lia.
  - rewrite !lookup_take_ge by lia. rewrite lookup_seq_ge by lia. done.
Qed.

Lemma contributing_pairs_at bandwidth fc freqs spec n :
  (n <= length freqs)%nat -> (n <= length spec)%nat ->
  Spec.contributing bandwidth fc freqs spec n =
  filter (fun p => Spec.in_window bandwidth fc p.1)
         (pairs_at freqs spec (seq 0 n)).
Proof. intros Hf Hs. unfold Spec.contributing. by rewrite pairs_at_zip. Qed.

(** The cell of a target index after the call, from the pairs in its
    window. *)
Lemma konno_cell_of spec freqs np ko_freqs ko_smooth nko bandwidth out i fc :
  (Z.to_nat np <= length freqs)%nat -> (Z.to_nat np <= length spec)%nat ->
  smoothed_below spec freqs np ko_freqs bandwidth ko_smooth out
                 (Z.to_nat nko) ->
  (Z.of_nat i < nko)%Z -> ko_freqs !! i = Some fc ->
  out !! i = Some (cell_of bandwidth fc
                     (Spec.contributing bandwidth fc freqs spec (Z.to_nat np))).
Proof.
  intros Hlf Hls Hout Hi Hfc.
  destruct (konno_cell _ _ _ _ _ _ _ _ _ _ Hout Hi Hfc) as (v & Hv & ->).
  rewrite smoothed_spec in Hv by done. by simplify_eq.
Qed.

Variables (bandwidth fc : R) (freqs : list R).

Lemma window_total_pairs_at spec spec' js :
  Spec.window_total_of bandwidth fc
    (filter (fun p => Spec.in_window bandwidth fc p.1) (pairs_at freqs spec js)) =
  Spec.window_total_of bandwidth fc
    (filter (fun p => Spec.in_window bandwidth fc p.1) (pairs_at freqs spec' js)).
Proof.
  induction js as [|j js IH]; [done|]. unfold pairs_at in *.
  rewrite !fmap_cons.
  destruct (decide (Spec.in_window bandwidth fc (sample_at freqs j))) as [Hin|Hout].
  - rewrite !filter_cons_True by done. rewrite !window_total_of_cons.
    simpl. by rewrite IH.
  - by rewrite !filter_cons_False by done.
Qed.

Lemma total_pairs_at_linear a spec1 spec2 spec3 js :
  (forall j, j ∈ js ->
     sample_at spec3 j = a * sample_at spec1 j + sample_at spec2 j) ->
  Spec.total_of bandwidth fc
    (filter (fun p => Spec.in_window bandwidth fc p.1) (pairs_at freqs spec3 js)) =
  a * Spec.total_of bandwidth fc
        (filter (fun p => Spec.in_window bandwidth fc p.1)
                (pairs_at freqs spec1 js)) +
  Spec.total_of bandwidth fc
    (filter (fun p => Spec.in_window bandwidth fc p.1) (pairs_at freqs spec2 js)).
Proof.
  induction js as [|j js IH]; intros Hs.
  - unfold Spec.total_of. simpl. lra.
  - unfold pairs_at in *. rewrite !fmap_cons.
    specialize (IH ltac:(intros i Hi; apply Hs; by right)).
    destruct (decide (Spec.in_window bandwidth fc (sample_at freqs j)))
      as [Hin|Hout].
    + rewrite !filter_cons_True by done. rewrite !total_of_cons. simpl.
      rewrite IH, (Hs j) by left. ring.
    + by rewrite !filter_cons_False by done.
Qed.

Lemma total_pairs_at_mono spec spec' js :
  (forall j, j ∈ js -> sample_at spec j <= sample_at spec' j) ->
  Spec.total_of bandwidth fc
    (filter (fun p => Spec.in_window bandwidth fc p.1) (pairs_at freqs spec js)) <=
  Spec.total_of bandwidth fc
    (filter (fun p => Spec.in_window bandwidth fc p.1) (pairs_at freqs spec' js)).
Proof.
  induction js as [|j js IH]; intros Hs.
  - unfold Spec.total_of. simpl. lra.
  - unfold pairs_at in *. rewrite !fmap_cons.
    specialize (IH ltac:(intros i Hi; apply Hs; by right)).
    destruct (decide (Spec.in_window bandwidth fc (sample_at freqs j)))
      as [Hin|Hout].
    + rewrite !filter_cons_True by done. rewrite !total_of_cons. simpl.
      pose proof (weight_bounds bandwidth fc (sample_at freqs j)) as Hw.
      pose proof (Hs j ltac:(left)) as Hj. nra.
    + by rewrite !filter_cons_False by done.
Qed.

Lemma total_const ps s :
  (forall p, p ∈ ps -> p.2 = s) ->
  Spec.total_of bandwidth fc ps = s * Spec.window_total_of bandwidth fc ps.
Proof.
  induction ps as [|p ps IH]; intros Hs.
  - unfold Spec.total_of, Spec.window_total_of. simpl. lra.
  - rewrite total_of_cons, window_total_of_cons.
    rewrite IH by (intros q Hq; apply Hs; by right).
    rewrite (Hs p) by left. ring.
Qed.

Lemma Rsum_Permutation l l' : l ≡ₚ l' -> Spec.Rsum l = Spec.Rsum l'.
Proof.
  induction 1 as [|x l l' _ IH|x y l|l l' l'' _ IH1 _ IH2]; simpl.
  - done.
  - unfold Spec.Rsum in *. simpl. by rewrite IH.
  - unfold Spec.Rsum. simpl. lra.
  - by rewrite IH1.
Qed.

Lemma sums_Permutation ps ps' :
  ps ≡ₚ ps' ->
  Spec.total_of bandwidth fc ps = Spec.total_of bandwidth fc ps' /\
  Spec.window_total_of bandwidth fc ps = Spec.window_total_of bandwidth fc ps'.
Proof.
  intros Hp. unfold Spec.total_of, Spec.window_total_of.
  split; apply Rsum_Permutation; by apply Permutation_map.
Qed.
End SmootherCells.

(** X8.  The smoother writes the cells 0 to [nko-1] of [ko_smooth] and
    nothing else: the buffer keeps its size, every cell from [nko] on
    keeps the caller's value, and the cells below [nko] do not depend on
    what the buffer held before. *)
Theorem smoother_writes_first_nko_cells
    (spec freqs : list R) (np : Z) (ko_freqs : list R)
    (ko_smooth ko_smooth' : list sample) (nko : Z) (bandwidth : R) :
  (Z.to_nat np <= length freqs)%nat -> (Z.to_nat np <= length spec)%nat ->
  (Z.to_nat nko <= length ko_freqs)%nat ->
  (Z.to_nat nko <= length ko_smooth)%nat ->
  (Z.to_nat nko <= length ko_smooth')%nat ->
  exists out out',
    konno_ohmachi_c spec freqs np ko_freqs ko_smooth nko bandwidth = Some out /\
    konno_ohmachi_c spec freqs np ko_freqs ko_smooth' nko bandwidth = Some out' /\
    length out = length ko_smooth /\
    (forall i : nat, (Z.to_nat nko <= i)%nat -> out !! i = ko_smooth !! i) /\
    (forall i : nat, (i < Z.to_nat nko)%nat ->
       is_Some (out !! i) /\ out !! i = out' !! i).
Proof.
  intros Hlf Hls Hlk Hlo Hlo'.
  destruct (konno_run spec freqs np ko_freqs ko_smooth nko bandwidth)
    as (out & Hrun & Hout); try done.
  destruct (konno_run spec freqs np ko_freqs ko_smooth' nko bandwidth)
    as (out' & Hrun' & Hout'); try done.
  exists out, out'. do 2 (split; [done|]).
  pose proof Hout as (Hlen & Hcells & Hrest).
  split; [done|]. split; [done|]. intros i Hi.
  destruct (lookup_lt_is_Some_2 ko_freqs i ltac:(lia)) as [fc Hfc].
  assert (Hi' : (Z.of_nat i < nko)%Z) by lia.
  rewrite (konno_cell_of _ _ _ _ _ _ _ _ _ _ Hlf Hls Hout Hi' Hfc).
  rewrite (konno_cell_of _ _ _ _ _ _ _ _ _ _ Hlf Hls Hout' Hi' Hfc).
  split; [eauto|done].
Qed.

(** X9.  On an empty spectrum ([np <= 0]) the smoother stores NaN at every
    target index, whatever the target frequencies are. *)
Theorem empty_spectrum_gives_nan
    (spec freqs : list R) (np : Z) (ko_freqs : list R)
    (ko_smooth : list sample) (nko : Z) (bandwidth : R) :
  (np <= 0)%Z ->
  (Z.to_nat nko <= length ko_freqs)%nat ->
  (Z.to_nat nko <= length ko_smooth)%nat ->
  exists out,
    konno_ohmachi_c spec freqs np ko_freqs ko_smooth nko bandwidth = Some out /\
    forall i : nat, (Z.of_nat i < nko)%Z -> out !! i = Some NAN.
Proof.
  intros Hnp Hlk Hlo.
  assert (Hlf : (Z.to_nat np <= length freqs)%nat) by lia.
  assert (Hls : (Z.to_nat np <= length spec)%nat) by lia.
  destruct (konno_run spec freqs np ko_freqs ko_smooth nko bandwidth)
    as (out & Hrun & Hout); try done.
  exists out. split; [done|]. intros i Hi.
  destruct (lookup_lt_is_Some_2 ko_freqs i ltac:(lia)) as [fc Hfc].
  rewrite (konno_cell_of _ _ _ _ _ _ _ _ _ _ Hlf Hls Hout Hi Hfc).
  replace (Z.to_nat np) with 0%nat by lia.
  unfold cell_of, Spec.contributing, Spec.window_total_of. simpl.
  destruct (Rltb fc 1e-6); [done|]. by rewrite Rgtb_false by lra.
Qed.

(** X10.  The smoother is linear in the spectrum: when every value of
    [spec3] is [a] times the value of [spec1] plus the value of [spec2],
    every cell of the smoothed [spec3] is [a] times the cell of the
    smoothed [spec1] plus the cell of the smoothed [spec2]; the cells that
    are NaN are the same for the three. *)
Theorem smoother_is_linear
    (spec1 spec2 spec3 freqs : list R) (np : Z) (ko_freqs : list R)
    (ko1 ko2 ko3 : list sample) (nko : Z) (bandwidth a : R) :
  (forall j : nat, (j < Z.to_nat np)%nat ->
     exists x y, spec1 !! j = Some x /\ spec2 !! j = Some y /\
                 spec3 !! j = Some (a * x + y)%R) ->
  (Z.to_nat np <= length freqs)%nat ->
  (Z.to_nat nko <= length ko_freqs)%nat ->
  (Z.to_nat nko <= length ko1)%nat -> (Z.to_nat nko <= length ko2)%nat ->
  (Z.to_nat nko <= length ko3)%nat ->
  exists out1 out2 out3,
    konno_ohmachi_c spec1 freqs np ko_freqs ko1 nko bandwidth = Some out1 /\
    konno_ohmachi_c spec2 freqs np ko_freqs ko2 nko bandwidth = Some out2 /\
    konno_ohmachi_c spec3 freqs np ko_freqs ko3 nko bandwidth = Some out3 /\
    forall i : nat, (Z.of_nat i < nko)%Z ->
      exists s1 s2,
        out1 !! i = Some s1 /\ out2 !! i = Some s2 /\
        out3 !! i = Some (sample_combine a s1 s2).
Proof.
  intros Hspec Hlf Hlk Hl1 Hl2 Hl3.
  assert (Hlen : (Z.to_nat np <= length spec1)%nat /\
                 (Z.to_nat np <= length spec2)%nat /\
                 (Z.to_nat np <= length spec3)%nat).
  { destruct (Z.to_nat np) as [|n] eqn:Hn; [lia|].
    destruct (Hspec n ltac:(lia)) as (x & y & H1 & H2 & H3).
    apply lookup_lt_Some in H1, H2, H3. lia. }
  destruct Hlen as (Hs1 & Hs2 & Hs3).
  destruct (konno_run spec1 freqs np ko_freqs ko1 nko bandwidth)
    as (out1 & Hrun1 & Hout1); try done.
  destruct (konno_run spec2 freqs np ko_freqs ko2 nko bandwidth)
    as (out2 & Hrun2 & Hout2); try done.
  destruct (konno_run spec3 freqs np ko_freqs ko3 nko bandwidth)
    as (out3 & Hrun3 & Hout3); try done.
  exists out1, out2, out3. do 3 (split; [done|]). intros i Hi.
  destruct (lookup_lt_is_Some_2 ko_freqs i ltac:(lia)) as [fc Hfc].
  eexists _, _.
  split; [exact (konno_cell_of _ _ _ _ _ _ _ _ _ _ Hlf Hs1 Hout1 Hi Hfc)|].
  split; [exact (konno_cell_of _ _ _ _ _ _ _ _ _ _ Hlf Hs2 Hout2 Hi Hfc)|].
  rewrite (konno_cell_of _ _ _ _ _ _ _ _ _ _ Hlf Hs3 Hout3 Hi Hfc).
  rewrite !contributing_pairs_at by done. unfold cell_of.
  destruct (Rltb fc 1e-6); [done|].
  rewrite (window_total_pairs_at bandwidth fc freqs spec1 spec3).
  rewrite (window_total_pairs_at bandwidth fc freqs spec2 spec3).
  rewrite (total_pairs_at_linear bandwidth fc freqs a spec1 spec2 spec3).
  - destruct (Rgtb _ 0) eqn:Hgt; [|done]. simpl. do 2 f_equal.
    unfold Rgtb in Hgt. apply bool_decide_eq_true_1 in Hgt.
    field. lra.
  - intros j Hj. apply elem_of_seq in Hj.
    destruct (Hspec j ltac:(lia)) as (x & y & H1 & H2 & H3).
    unfold sample_at. by rewrite H1, H2, H3.
Qed.

(** X11.  The smoother is monotone in the spectrum: when every value of
    [spec] is at most the value of [spec'], every smoothed cell of [spec]
    is at most the cell of [spec'], and the two are NaN together. *)
Theorem smoother_is_monotone
    (spec spec' freqs : list R) (np : Z) (ko_freqs : list R)
    (ko ko' : list sample) (nko : Z) (bandwidth : R) :
  (forall j : nat, (j < Z.to_nat np)%nat ->
     exists x y, spec !! j = Some x /\ spec' !! j = Some y /\ (x <= y)%R) ->
  (Z.to_nat np <= length freqs)%nat ->
  (Z.to_nat nko <= length ko_freqs)%nat ->
  (Z.to_nat nko <= length ko)%nat -> (Z.to_nat nko <= length ko')%nat ->
  exists out out',
    konno_ohmachi_c spec freqs np ko_freqs ko nko bandwidth = Some out /\
    konno_ohmachi_c spec' freqs np ko_freqs ko' nko bandwidth = Some out' /\
    forall i : nat, (Z.of_nat i < nko)%Z ->
      exists s s',
        out !! i = Some s /\ out' !! i = Some s' /\ sample_le s s'.
Proof.
  intros Hspec Hlf Hlk Hl Hl'.
  assert (Hlen : (Z.to_nat np <= length spec)%nat /\
                 (Z.to_nat np <= length spec')%nat).
  { destruct (Z.to_nat np) as [|n] eqn:Hn; [lia|].
    destruct (Hspec n ltac:(lia)) as (x & y & H1 & H2 & _).
    apply lookup_lt_Some in H1, H2. lia. }
  destruct Hlen as (Hs & Hs').
  destruct (konno_run spec freqs np ko_freqs ko nko bandwidth)
    as (out & Hrun & Hout); try done.
  destruct (konno_run spec' freqs np ko_freqs ko' nko bandwidth)
    as (out' & Hrun' & Hout'); try done.
  exists out, out'. do 2 (split; [done|]). intros i Hi.
  destruct (lookup_lt_is_Some_2 ko_freqs i ltac:(lia)) as [fc Hfc].
  eexists _, _.
  split; [exact (konno_cell_of _ _ _ _ _ _ _ _ _ _ Hlf Hs Hout Hi Hfc)|].
  split; [exact (konno_cell_of _ _ _ _ _ _ _ _ _ _ Hlf Hs' Hout' Hi Hfc)|].
  rewrite !contributing_pairs_at by done. unfold cell_of.
  destruct (Rltb fc 1e-6); [done|].
  rewrite (window_total_pairs_at bandwidth fc freqs spec spec').
  pose proof (total_pairs_at_mono bandwidth fc freqs spec spec'
                (seq 0 (Z.to_nat np))) as Hmono.
  destruct (Rgtb _ 0) eqn:Hgt; [|done]. simpl.
  unfold Rgtb in Hgt. apply bool_decide_eq_true_1 in Hgt.
  apply Rmult_le_compat_r.
  - left. by apply Rinv_0_lt_compat.
  - apply Hmono. intros j Hj. apply elem_of_seq in Hj.
    destruct (Hspec j ltac:(lia)) as (x & y & H1 & H2 & Hxy).
    unfold sample_at. by rewrite H1, H2.
Qed.

(** X12.  A target frequency that is one of the [np] input frequencies
    always gets a number: with a positive bandwidth and a target of at
    least 1e-6, its cell is never NaN. *)
Theorem target_among_inputs_is_a_number
    (spec freqs : list R) (np : Z) (ko_freqs : list R)
    (ko_smooth : list sample) (nko : Z) (bandwidth : R) (i j : nat) (fc : R) :
  (0 < bandwidth)%R -> ko_freqs !! i = Some fc -> (1e-6 <= fc)%R ->
  (Z.of_nat i < nko)%Z ->
  (j < Z.to_nat np)%nat -> freqs !! j = Some fc ->
  (Z.to_nat np <= length freqs)%nat -> (Z.to_nat np <= length spec)%nat ->
  (Z.to_nat nko <= length ko_freqs)%nat ->
  (Z.to_nat nko <= length ko_smooth)%nat ->
  exists out v,
    konno_ohmachi_c spec freqs np ko_freqs ko_smooth nko bandwidth = Some out /\
    out !! i = Some (Num v).
Proof.
  intros Hb Hfc Hge Hi Hj Hfj Hlf Hls Hlk Hlo.
  destruct (konno_run spec freqs np ko_freqs ko_smooth nko bandwidth)
    as (out & Hrun & Hout); try done.
  destruct (lookup_lt_is_Some_2 spec j ltac:(lia)) as [s Hs].
  pose proof (contributing_match bandwidth fc freqs spec (Z.to_nat np) j s
                Hb Hge Hj Hfj Hs) as Hwt.
  exists out. eexists. split; [done|].
  rewrite (konno_cell_of _ _ _ _ _ _ _ _ _ _ Hlf Hls Hout Hi Hfc).
  unfold cell_of. rewrite Rltb_false by lra. by rewrite Rgtb_true by lra.
Qed.

(** X13.  The smoother does not depend on the order of the input pairs:
    two inputs whose pairs [(freqs[j], spec[j])], [j < np], are the same
    up to order give the same cells. *)
Theorem smoother_ignores_input_order
    (spec freqs spec' freqs' : list R) (np np' : Z) (ko_freqs : list R)
    (ko ko' : list sample) (nko : Z) (bandwidth : R) :
  zip (take (Z.to_nat np) freqs) (take (Z.to_nat np) spec) ≡ₚ
  zip (take (Z.to_nat np') freqs') (take (Z.to_nat np') spec') ->
  (Z.to_nat np <= length freqs)%nat -> (Z.to_nat np <= length spec)%nat ->
  (Z.to_nat np' <= length freqs')%nat -> (Z.to_nat np' <= length spec')%nat ->
  (Z.to_nat nko <= length ko_freqs)%nat ->
  (Z.to_nat nko <= length ko)%nat -> (Z.to_nat nko <= length ko')%nat ->
  exists out out',
    konno_ohmachi_c spec freqs np ko_freqs ko nko bandwidth = Some out /\
    konno_ohmachi_c spec' freqs' np' ko_freqs ko' nko bandwidth = Some out' /\
    forall i : nat, (Z.of_nat i < nko)%Z ->
      is_Some (out !! i) /\ out !! i = out' !! i.
Proof.
  intros Hperm Hlf Hls Hlf' Hls' Hlk Hl Hl'.
  destruct (konno_run spec freqs np ko_freqs ko nko bandwidth)
    as (out & Hrun & Hout); try done.
  destruct (konno_run spec' freqs' np' ko_freqs ko' nko bandwidth)
    as (out' & Hrun' & Hout'); try done.
  exists out, out'. do 2 (split; [done|]). intros i Hi.
  destruct (lookup_lt_is_Some_2 ko_freqs i ltac:(lia)) as [fc Hfc].
  rewrite (konno_cell_of _ _ _ _ _ _ _ _ _ _ Hlf Hls Hout Hi Hfc).
  rewrite (konno_cell_of _ _ _ _ _ _ _ _ _ _ Hlf' Hls' Hout' Hi Hfc).
  split; [eauto|]. f_equal. unfold cell_of.
  assert (Hc : Spec.contributing bandwidth fc freqs spec (Z.to_nat np) ≡ₚ
               Spec.contributing bandwidth fc freqs' spec' (Z.to_nat np')).
  { unfold Spec.contributing. by rewrite Hperm. }
  destruct (sums_Permutation bandwidth fc _ _ Hc) as [-> ->]. done.
Qed.

(** X14.  Every target is smoothed on its own: the cell of a target index
    depends on the target frequency at that index alone, not on the rest
    of the grid, its length or the index.  Two grids that hold the same
    frequency at [i] and [i'] give the same cell there. *)
Theorem targets_are_smoothed_independently
    (spec freqs : list R) (np : Z) (ko_freqs ko_freqs' : list R)
    (ko ko' : list sample) (nko nko' : Z) (bandwidth : R) (i i' : nat) (fc : R) :
  ko_freqs !! i = Some fc -> ko_freqs' !! i' = Some fc ->
  (Z.of_nat i < nko)%Z -> (Z.of_nat i' < nko')%Z ->
  (Z.to_nat np <= length freqs)%nat -> (Z.to_nat np <= length spec)%nat ->
  (Z.to_nat nko <= length ko_freqs)%nat -> (Z.to_nat nko <= length ko)%nat ->
  (Z.to_nat nko' <= length ko_freqs')%nat -> (Z.to_nat nko' <= length ko')%nat ->
  exists out out',
    konno_ohmachi_c spec freqs np ko_freqs ko nko bandwidth = Some out /\
    konno_ohmachi_c spec freqs np ko_freqs' ko' nko' bandwidth = Some out' /\
    is_Some (out !! i) /\ out !! i = out' !! i'.
Proof.
  intros Hfc Hfc' Hi Hi' Hlf Hls Hlk Hl Hlk' Hl'.
  destruct (konno_run spec freqs np ko_freqs ko nko bandwidth)
    as (out & Hrun & Hout); try done.
  destruct (konno_run spec freqs np ko_freqs' ko' nko' bandwidth)
    as (out' & Hrun' & Hout'); try done.
  exists out, out'. do 2 (split; [done|]).
  rewrite (konno_cell_of _ _ _ _ _ _ _ _ _ _ Hlf Hls Hout Hi Hfc).
  rewrite (konno_cell_of _ _ _ _ _ _ _ _ _ _ Hlf Hls Hout' Hi' Hfc').
  split; [eauto|done].
Qed.

Lemma contributing_lookup bandwidth fc freqs spec n f s :
  (n <= length freqs)%nat -> (n <= length spec)%nat ->
  (f, s) ∈ Spec.contributing bandwidth fc freqs spec n ->
  Spec.in_window bandwidth fc f /\
  exists j, (j < n)%nat /\ freqs !! j = Some f /\ spec !! j = Some s.
Proof.
  intros Hlf Hls Hin. rewrite contributing_pairs_at in Hin by done.
  apply list_elem_of_filter in Hin as [Hw Hin]. split; [done|].
  unfold pairs_at in Hin. apply list_elem_of_fmap in Hin as (j & Heq & Hj).
  apply elem_of_seq in Hj. simplify_eq. exists j. split; [lia|].
  split; apply sample_at_lookup; lia.
Qed.

(** X15.  In exact arithmetic: where the spectrum is constant over the
    window of a target, the smoother returns that constant (the binary64
    program returns it up to the rounding of the sums and of the
    quotient): when every input pair in the window
    of [fc >= 1e-6] has the value [s], the cell is [s] or, for an empty or
    weightless window, NaN; it is [s] when [fc] is itself one of the
    input frequencies and the bandwidth is positive. *)
Theorem constant_window_gives_constant
    (spec freqs : list R) (np : Z) (ko_freqs : list R)
    (ko_smooth : list sample) (nko : Z) (bandwidth : R) (i : nat) (fc s : R) :
  ko_freqs !! i = Some fc -> (1e-6 <= fc)%R -> (Z.of_nat i < nko)%Z ->
  (forall (j : nat) (f : R), (j < Z.to_nat np)%nat -> freqs !! j = Some f ->
     Spec.in_window bandwidth fc f -> spec !! j = Some s) ->
  (Z.to_nat np <= length freqs)%nat -> (Z.to_nat np <= length spec)%nat ->
  (Z.to_nat nko <= length ko_freqs)%nat ->
  (Z.to_nat nko <= length ko_smooth)%nat ->
  exists out,
    konno_ohmachi_c spec freqs np ko_freqs ko_smooth nko bandwidth = Some out /\
    (out !! i = Some (Num s) \/ out !! i = Some NAN) /\
    ((0 < bandwidth)%R ->
     (exists j, (j < Z.to_nat np)%nat /\ freqs !! j = Some fc) ->
     out !! i = Some (Num s)).
Proof.
  intros Hfc Hge Hi Hflat Hlf Hls Hlk Hlo.
  destruct (konno_run spec freqs np ko_freqs ko_smooth nko bandwidth)
    as (out & Hrun & Hout); try done.
  exists out. split; [done|].
  rewrite (konno_cell_of _ _ _ _ _ _ _ _ _ _ Hlf Hls Hout Hi Hfc).
  unfold cell_of. rewrite Rltb_false by lra.
  set (ps := Spec.contributing bandwidth fc freqs spec (Z.to_nat np)).
  assert (Ht : Spec.total_of bandwidth fc ps =
               (s * Spec.window_total_of bandwidth fc ps)%R).
  { apply total_const. intros [f s'] Hin.
    apply contributing_lookup in Hin as (Hw & j & Hj & Hf & Hs); try done.
    rewrite (Hflat j f Hj Hf Hw) in Hs. by simplify_eq. }
  assert (Hnum : (Spec.window_total_of bandwidth fc ps > 0)%R ->
                 (if Rgtb (Spec.window_total_of bandwidth fc ps) 0
                  then Num (Spec.total_of bandwidth fc ps /
                            Spec.window_total_of bandwidth fc ps)
                  else NAN) = Num s).
  { intros Hwt. rewrite Rgtb_true by done. rewrite Ht. f_equal. field. lra. }
  split.
  - destruct (Rgt_dec (Spec.window_total_of bandwidth fc ps) 0) as [Hwt|Hwt].
    + left. by rewrite Hnum.
    + right. by rewrite Rgtb_false.
  - intros Hb (j & Hj & Hfj). rewrite Hnum; [done|].
    destruct (lookup_lt_is_Some_2 spec j ltac:(lia)) as [s' Hs'].
    pose proof (contributing_match bandwidth fc freqs spec (Z.to_nat np) j s'
                  Hb Hge Hj Hfj Hs'). fold ps in H. lra.
Qed.

(** * The integrator and the unit of time *)



Section TimeUnit.
Local Open Scope R_scope.
Variables (l dt period damping : R).
Hypothesis Hl : 0 < l.
Hypothesis Hp : 0 < period.
Hypothesis Hd : 0 <= damping < 1.
Hypothesis Hdt : dt <> 0.








End TimeUnit.


(** * The further properties at concrete inputs *)

Section MoreInstances.
Local Open Scope R_scope.

Lemma response_superposition_witness :
  exists out1 out2 out3,
    Current.calculate_spectrals_c [0; 1; 1; 0] 4 0.01 1 0.05
      (Resp [0; 0; 0] [0; 0; 0] [0; 0; 0]) = Some out1 /\
    Current.calculate_spectrals_c [0; 2; 0; 0] 4 0.01 1 0.05
      (Resp [0; 0; 0] [0; 0; 0] [0; 0; 0]) = Some out2 /\
    Current.calculate_spectrals_c [3 * 0 + 0; 3 * 1 + 2; 3 * 1 + 0; 3 * 0 + 0]
      4 0.01 1 0.05 (Resp [0; 0; 0] [0; 0; 0] [0; 0; 0]) = Some out3 /\
    combine_below 3 3 out1 out2 out3.
Proof.
  apply (response_superposition [0; 0.01] [0; 1; 1; 0] [0; 2; 0; 0]
           [3 * 0 + 0; 3 * 1 + 2; 3 * 1 + 0; 3 * 0 + 0] 4 0.01 1 0.05 0 0.01 3
           (Resp [0; 0; 0] [0; 0; 0] [0; 0; 0])
           (Resp [0; 0; 0] [0; 0; 0] [0; 0; 0])
           (Resp [0; 0; 0] [0; 0; 0] [0; 0; 0]));
    [lia|reflexivity|reflexivity| |unfold room; cbn; lia..].
  intros k Hk. change (Z.to_nat 4) with 4%nat in Hk.
  do 4 (destruct k as [|k];
        [eexists _, _; split; [reflexivity|split; reflexivity]|]).
  lia.
Defined.

Lemma response_is_causal_witness :
  exists out out',
    Current.calculate_spectrals_c [0; 1; 1; 0] 4 0.01 1 0.05
      (Resp [0; 0; 0] [0; 0; 0] [0; 0; 0]) = Some out /\
    Current.calculate_spectrals_c [0; 1; 1] 3 0.01 1 0.05
      (Resp [7; 7] [7; 7] [7; 7]) = Some out' /\
    agree_below 2 out out'.
Proof.
  apply (response_is_causal [0; 0.01] [0; 1; 1; 0] [0; 1; 1] 4 3 0.01 1 0.05
           0 0.01 (Resp [0; 0; 0] [0; 0; 0] [0; 0; 0])
           (Resp [7; 7] [7; 7] [7; 7]));
    [lia|lia|reflexivity|reflexivity| |cbn; lia|cbn; lia
    |unfold room; cbn; lia|unfold room; cbn; lia].
  intros k Hk. change (Z.to_nat 3) with 3%nat in Hk.
  do 3 (destruct k as [|k]; [reflexivity|]). lia.
Defined.

Lemma response_is_time_invariant_witness :
  exists out out',
    Current.calculate_spectrals_c [0; 1; 1; 0] 4 0.01 1 0.05
      (Resp [0; 0; 0] [0; 0; 0] [0; 0; 0]) = Some out /\
    Current.calculate_spectrals_c [0; 0; 1; 1; 0] (4 + 1) 0.01 1 0.05
      (Resp [7; 7; 7; 7] [7; 7; 7; 7] [7; 7; 7; 7]) = Some out' /\
    (sacc out' !! 0%nat = Some 0 /\ svel out' !! 0%nat = Some 0 /\
     sdis out' !! 0%nat = Some 0) /\
    delayed_below 3 out out'.
Proof.
  apply (response_is_time_invariant [0; 0.01] [0; 1; 1; 0] 4 0.01 1 0.05
           0 0.01 (Resp [0; 0; 0] [0; 0; 0] [0; 0; 0])
           (Resp [7; 7; 7; 7] [7; 7; 7; 7] [7; 7; 7; 7]));
    [lia|lra|lra|lra|reflexivity|reflexivity|lra|reflexivity|cbn; lia
    |unfold room; cbn; lia|unfold room; cbn; lia].
Defined.

Lemma response_is_quiet_before_input_witness :
  exists out,
    Current.calculate_spectrals_c [0; 0; 1; 0] 4 0.01 1 0.05
      (Resp [7; 7; 7] [7; 7; 7] [7; 7; 7]) = Some out /\
    zero_below 1 out.
Proof.
  apply (response_is_quiet_before_input [0; 0.01] [0; 0; 1; 0] 4 1 0.01 1 0.05
           0 0.01 (Resp [7; 7; 7] [7; 7; 7] [7; 7; 7]));
    [lia|cbn; lia|lra|lra|lra|reflexivity|reflexivity|lra|
    |cbn; lia|unfold room; cbn; lia].
  intros k Hk. do 2 (destruct k as [|k]; [reflexivity|]). lia.
Defined.

(** A step of 0.05 s against a period of 0.1 s: five sub-steps. *)
Lemma substeps_bound_effective_step_witness :
  10 * 0.05 / 0.1 - 0.01 < 2147483648 /\
  0.05 / Legacy.substeps 0.05 0.1 < 0.101 * 0.1.
Proof.
  split; [lra|]. apply (substeps_bound_effective_step 0.05 0.1); lra.
Defined.

Lemma smoother_writes_first_nko_cells_witness :
  exists out out',
    konno_ohmachi_c [1; 1; 1; 1; 1] [1; 2; 3; 4; 5] 5 [3] [NAN; Num 7] 1 20
    = Some out /\
    konno_ohmachi_c [1; 1; 1; 1; 1] [1; 2; 3; 4; 5] 5 [3] [Num 0; Num 8] 1 20
    = Some out' /\
    out !! 1%nat = Some (Num 7) /\ out !! 0%nat = out' !! 0%nat.
Proof.
  destruct (smoother_writes_first_nko_cells [1; 1; 1; 1; 1] [1; 2; 3; 4; 5] 5
              [3] [NAN; Num 7] [Num 0; Num 8] 1 20)
    as (out & out' & Hr & Hr' & _ & Hrest & Hcells); [cbn; lia..|].
  exists out, out'. split; [exact Hr|]. split; [exact Hr'|]. split.
  - rewrite (Hrest 1%nat); [reflexivity|cbn; lia].
  - apply (Hcells 0%nat). cbn. lia.
Defined.

Lemma empty_spectrum_gives_nan_witness :
  exists out,
    konno_ohmachi_c [] [] 0 [3; 4] [Num 0; Num 0] 2 20 = Some out /\
    out !! 1%nat = Some NAN.
Proof.
  destruct (empty_spectrum_gives_nan [] [] 0 [3; 4] [Num 0; Num 0] 2 20)
    as (out & Hr & Hcells); [lia|cbn; lia|cbn; lia|].
  exists out. split; [exact Hr|]. apply Hcells. lia.
Defined.

Lemma smoother_is_linear_witness :
  exists out1 out2 out3 s1 s2,
    konno_ohmachi_c [1; 2; 3] [1; 2; 3] 3 [2] [NAN] 1 20 = Some out1 /\
    konno_ohmachi_c [0; 5; 0] [1; 2; 3] 3 [2] [NAN] 1 20 = Some out2 /\
    konno_ohmachi_c [4 * 1 + 0; 4 * 2 + 5; 4 * 3 + 0] [1; 2; 3] 3 [2] [NAN] 1 20
    = Some out3 /\
    out1 !! 0%nat = Some s1 /\ out2 !! 0%nat = Some s2 /\
    out3 !! 0%nat = Some (sample_combine 4 s1 s2).
Proof.
  destruct (smoother_is_linear [1; 2; 3] [0; 5; 0]
              [4 * 1 + 0; 4 * 2 + 5; 4 * 3 + 0] [1; 2; 3] 3 [2]
              [NAN] [NAN] [NAN] 1 20 4)
    as (out1 & out2 & out3 & H1 & H2 & H3 & Hcells); [|cbn; lia..|].
  { intros j Hj. change (Z.to_nat 3) with 3%nat in Hj.
    do 3 (destruct j as [|j];
          [eexists _, _; split; [reflexivity|split; reflexivity]|]).
    lia. }
  destruct (Hcells 0%nat ltac:(lia)) as (s1 & s2 & E1 & E2 & E3).
  exists out1, out2, out3, s1, s2. auto 10.
Defined.

Lemma smoother_is_monotone_witness :
  exists out out' s s',
    konno_ohmachi_c [1; 2; 3] [1; 2; 3] 3 [2] [NAN] 1 20 = Some out /\
    konno_ohmachi_c [1; 5; 3] [1; 2; 3] 3 [2] [NAN] 1 20 = Some out' /\
    out !! 0%nat = Some s /\ out' !! 0%nat = Some s' /\ sample_le s s'.
Proof.
  destruct (smoother_is_monotone [1; 2; 3] [1; 5; 3] [1; 2; 3] 3 [2]
              [NAN] [NAN] 1 20)
    as (out & out' & H & H' & Hcells); [|cbn; lia..|].
  { intros j Hj. change (Z.to_nat 3) with 3%nat in Hj.
    do 3 (destruct j as [|j];
          [eexists _, _; split; [reflexivity|split; [reflexivity|lra]]|]).
    lia. }
  destruct (Hcells 0%nat ltac:(lia)) as (s & s' & E & E' & Hle).
  exists out, out', s, s'. auto 10.
Defined.

Lemma target_among_inputs_is_a_number_witness :
  exists out v,
    konno_ohmachi_c [2; 4; 6; 8; 10] [1; 2; 3; 4; 5] 5 [3] [NAN] 1 20
    = Some out /\
    out !! 0%nat = Some (Num v).
Proof.
  apply (target_among_inputs_is_a_number [2; 4; 6; 8; 10] [1; 2; 3; 4; 5] 5
           [3] [NAN] 1 20 0 2 3);
    [lra|reflexivity|lra|lia|cbn; lia|reflexivity|cbn; lia..].
Defined.

Lemma smoother_ignores_input_order_witness :
  exists out out',
    konno_ohmachi_c [5; 6; 7] [1; 2; 3] 3 [2] [NAN] 1 20 = Some out /\
    konno_ohmachi_c [7; 5; 6] [3; 1; 2] 3 [2] [NAN] 1 20 = Some out' /\
    out !! 0%nat = out' !! 0%nat.
Proof.
  destruct (smoother_ignores_input_order [5; 6; 7] [1; 2; 3] [7; 5; 6]
              [3; 1; 2] 3 3 [2] [NAN] [NAN] 1 20)
    as (out & out' & H & H' & Hcells); [|cbn; lia..|].
  { change (Z.to_nat 3) with 3%nat. cbn. symmetry.
    apply (Permutation_cons_append [(1, 5); (2, 6)] (3, 7)). }
  exists out, out'. split; [exact H|]. split; [exact H'|].
  apply (Hcells 0%nat). lia.
Defined.

Lemma targets_are_smoothed_independently_witness :
  exists out out',
    konno_ohmachi_c [5; 6; 7] [1; 2; 3] 3 [1; 2] [NAN; NAN] 2 20 = Some out /\
    konno_ohmachi_c [5; 6; 7] [1; 2; 3] 3 [2] [NAN] 1 20 = Some out' /\
    out !! 1%nat = out' !! 0%nat.
Proof.
  destruct (targets_are_smoothed_independently [5; 6; 7] [1; 2; 3] 3 [1; 2]
              [2] [NAN; NAN] [NAN] 2 1 20 1 0 2)
    as (out & out' & H & H' & _ & Heq);
    [reflexivity|reflexivity|lia|lia|cbn; lia..|].
  exists out, out'. auto.
Defined.

Lemma constant_window_gives_constant_witness :
  exists out,
    konno_ohmachi_c [9; 9; 9] [3; 3; 3] 3 [3] [NAN] 1 20 = Some out /\
    out !! 0%nat = Some (Num 9).
Proof.
  destruct (constant_window_gives_constant [9; 9; 9] [3; 3; 3] 3 [3] [NAN] 1
              20 0 3 9)
    as (out & Hr & _ & Hnum); [reflexivity|lra|lia| |cbn; lia..|].
  { intros j f Hj Hf _. change (Z.to_nat 3) with 3%nat in Hj.
    do 3 (destruct j as [|j]; [reflexivity|]). lia. }
  exists out. split; [exact Hr|]. apply Hnum; [lra|].
  exists 0%nat. split; [cbn; lia|reflexivity].
Defined.

End MoreInstances.
